(** * day33: the CUDA kernels of the two-layer perceptron (init2nn.cu)

    A shallow embedding of the numeric kernels, of the forward pipeline that
    launches them, of the host code that loads the data, initialises the
    parameters and evaluates the loss, and of the tensor-core benchmark
    ([Wmma]), then the quantities the specification speaks of, then the
    properties of the kernels and of the host code.

    Conventions.
    - An [int] is a [Z]; every arithmetic operation of the source on an [int]
      is wrapped to 32 bits ([iadd], [imul], [thread_index]).
    - A device buffer ([float *]) is a total map from element offsets to
      scalars; distinct pointer arguments of a kernel are distinct
      allocations.
    - The [float] arithmetic is an interface ([Scalar]); the kernels are
      written once against it.  It is instantiated by IEEE binary32
      ([Binary32]) and by the real numbers ([Exact]).
    - A launch runs the body of every thread of the grid; the threads are run
      one after the other in an arbitrary order of the grid ([exec]). *)

From Stdlib Require Import ZArith List Lia Bool Permutation QArith Qreals.
From Stdlib Require Import Reals Lra SpecFloat.
From Stdlib Require String.
Import ListNotations.

Local Open Scope Z_scope.

(** ** Machine integers *)

Definition INT_MAX : Z := 2147483647.

(** Two's complement wrap-around of a 32-bit [int]. *)
Definition wrap (z : Z) : Z := (z + 2147483648) mod 4294967296 - 2147483648.

Definition iadd (a b : Z) : Z := wrap (a + b).
Definition imul (a b : Z) : Z := wrap (a * b).

(** C division and remainder of [int]s truncate towards zero. *)
Definition idiv (a b : Z) : Z := wrap (Z.quot a b).
Definition imod (a b : Z) : Z := wrap (Z.rem a b).

(** ** Launch geometry *)

(** [dim3]; the [z] component is 1 in every launch of the program. *)
Record dim3 : Type := mkdim3 { dim_x : Z; dim_y : Z }.

Record thread : Type := mkthread { blockIdx : dim3; threadIdx : dim3 }.

(** [blockIdx.x * blockDim.x + threadIdx.x] is computed on [unsigned int]
    and stored in an [int]. *)
Definition thread_index (blockIdx_c blockDim_c threadIdx_c : Z) : Z :=
  wrap ((blockIdx_c * blockDim_c + threadIdx_c) mod 4294967296).

(** The integers [lo], [lo+1], ..., [hi-1]: the values a loop counter takes
    in [for (int i = lo; i < hi; ++i)]. *)
Definition range (lo hi : Z) : list Z :=
  map (fun i => lo + Z.of_nat i) (seq 0 (Z.to_nat (hi - lo))).

(** All the threads of a launch [<<<gridDim, blockDim>>>]. *)
Definition grid_threads (gridDim blockDim : dim3) : list thread :=
  flat_map (fun by_ =>
  flat_map (fun bx =>
  flat_map (fun ty =>
  map (fun tx => mkthread (mkdim3 bx by_) (mkdim3 tx ty))
      (range 0 (dim_x blockDim)))
      (range 0 (dim_y blockDim)))
      (range 0 (dim_x gridDim)))
      (range 0 (dim_y gridDim)).

(** The kernel body of every thread of a schedule, one thread after the
    other. *)
Definition exec {St : Type} (kernel : thread -> St -> St)
                (sched : list thread) (s : St) : St :=
  fold_left (fun s t => kernel t s) sched s.

(** A schedule of a launch is any ordering of its threads. *)
Definition schedule_of (gridDim blockDim : dim3) (sched : list thread) : Prop :=
  Permutation (grid_threads gridDim blockDim) sched.

(** The global thread indices of the launch are representable as [int]. *)
Definition launch_fits (gridDim blockDim : dim3) : bool :=
  (0 <? dim_x blockDim) && (0 <? dim_y blockDim) &&
  (0 <=? dim_x gridDim) && (0 <=? dim_y gridDim) &&
  (dim_x gridDim * dim_x blockDim <=? INT_MAX + 1) &&
  (dim_y gridDim * dim_y blockDim <=? INT_MAX + 1).

(** ** Scalars *)

(** The operations the kernels apply to [float] values. *)
Class Scalar (F : Type) : Type := {
  fadd : F -> F -> F;
  fsub : F -> F -> F;
  fmul : F -> F -> F;
  fdiv : F -> F -> F;
  fmaxf : F -> F -> F;
  expf : F -> F;
  logf : F -> F;
  tanhf : F -> F;
  coshf : F -> F;
  sqrtf : F -> F;
  (** a decimal [float] literal, such as [0.5f] *)
  lit : Q -> F;
  (** the conversion of an [int] to [float] *)
  of_int : Z -> F;
  (** [2.0f / M_PI]: the quotient is taken in [double] and narrowed to
      [float] where it is passed to [sqrtf] *)
  two_over_pi : F
}.

(** ** Buffers *)

Definition buffer (F : Type) : Type := Z -> F.

Definition upd {F : Type} (b : buffer F) (i : Z) (v : F) : buffer F :=
  fun j => if j =? i then v else b j.

(** ** The kernels *)

Section Kernels.
Context {F : Type} {SF : Scalar F}.

(** [matmul_a_b_kernel]: C = A @ B. *)
Definition matmul_a_b_kernel (blockDim : dim3) (t : thread)
    (A B C : buffer F) (m n k : Z) : buffer F :=
  let row := thread_index (dim_y (blockIdx t)) (dim_y blockDim) (dim_y (threadIdx t)) in
  let col := thread_index (dim_x (blockIdx t)) (dim_x blockDim) (dim_x (threadIdx t)) in
  if (row <? m) && (col <? k) then
    let sum :=
      fold_left (fun sum i =>
                   fadd sum (fmul (A (iadd (imul row n) i)) (B (iadd (imul i k) col))))
                (range 0 n) (lit 0) in
    upd C (iadd (imul row k) col) sum
  else C.

(** [matmul_a_bt_kernel]: C = A @ B.T. *)
Definition matmul_a_bt_kernel (blockDim : dim3) (t : thread)
    (A B C : buffer F) (m n k : Z) : buffer F :=
  let row := thread_index (dim_y (blockIdx t)) (dim_y blockDim) (dim_y (threadIdx t)) in
  let col := thread_index (dim_x (blockIdx t)) (dim_x blockDim) (dim_x (threadIdx t)) in
  if (row <? m) && (col <? k) then
    let sum :=
      fold_left (fun sum i =>
                   fadd sum (fmul (A (iadd (imul row n) i)) (B (iadd (imul col n) i))))
                (range 0 n) (lit 0) in
    upd C (iadd (imul row k) col) sum
  else C.

(** [matmul_at_b_kernel]: C = A.T @ B. *)
Definition matmul_at_b_kernel (blockDim : dim3) (t : thread)
    (A B C : buffer F) (m n k : Z) : buffer F :=
  let row := thread_index (dim_y (blockIdx t)) (dim_y blockDim) (dim_y (threadIdx t)) in
  let col := thread_index (dim_x (blockIdx t)) (dim_x blockDim) (dim_x (threadIdx t)) in
  if (row <? n) && (col <? k) then
    let sum :=
      fold_left (fun sum i =>
                   fadd sum (fmul (A (iadd (imul i n) row)) (B (iadd (imul i k) col))))
                (range 0 m) (lit 0) in
    upd C (iadd (imul row k) col) sum
  else C.

(** [gelu_kernel]: GELU activation, in place. *)
Definition gelu_kernel (blockDim : dim3) (t : thread)
    (x : buffer F) (size : Z) : buffer F :=
  let idx := thread_index (dim_x (blockIdx t)) (dim_x blockDim) (dim_x (threadIdx t)) in
  if idx <? size then
    let x_val := x idx in
    let cdf :=
      fmul (lit 0.5)
           (fadd (lit 1)
                 (tanhf (fmul (lit 0.7978845608)
                              (fadd x_val
                                    (fmul (fmul (fmul (lit 0.044715) x_val) x_val) x_val))))) in
    upd x idx (fmul x_val cdf)
  else x.

(** [dgelu_kernel]: GELU derivative; the state is the pair of the buffers
    [x] and [d_gelu_out]. *)
Definition dgelu_kernel (blockDim : dim3) (t : thread)
    (x_out : buffer F * buffer F) (size : Z) : buffer F * buffer F :=
  let '(x, d_gelu_out) := x_out in
  let idx := thread_index (dim_x (blockIdx t)) (dim_x blockDim) (dim_x (threadIdx t)) in
  if idx <? size then
    let x_val := x idx in
    let tanh_term :=
      tanhf (fmul (lit 0.7978845608)
                  (fadd x_val (fmul (fmul (fmul (lit 0.044715) x_val) x_val) x_val))) in
    let sech_term :=
      fdiv (lit 1)
           (coshf (fmul (lit 0.7978845608)
                        (fadd x_val (fmul (fmul (fmul (lit 0.044715) x_val) x_val) x_val)))) in
    let cdf := fmul (lit 0.5) (fadd (lit 1) tanh_term) in
    let pdf :=
      fmul (fmul (lit 0.5) (sqrtf two_over_pi))
           (expf (fmul (fmul (lit (-0.5)) x_val) x_val)) in
    (x, upd d_gelu_out idx (fadd cdf (fmul x_val pdf)))
  else (x, d_gelu_out).

(** [softmax_kernel]: one block per row, three sequential loops over the
    row, in place. *)
Definition softmax_kernel (blockDim : dim3) (t : thread)
    (x : buffer F) (batch_size size : Z) : buffer F :=
  let b := thread_index (dim_x (blockIdx t)) 1 0 in
  if b <? batch_size then
    let max_val :=
      fold_left (fun max_val i => fmaxf max_val (x (iadd (imul b size) i)))
                (range 1 size) (x (imul b size)) in
    let '(x, sum) :=
      fold_left (fun '(x, sum) i =>
                   let x := upd x (iadd (imul b size) i)
                                (expf (fsub (x (iadd (imul b size) i)) max_val)) in
                   (x, fadd sum (x (iadd (imul b size) i))))
                (range 0 size) (x, lit 0) in
    fold_left (fun x i =>
                 upd x (iadd (imul b size) i)
                     (fmaxf (fdiv (x (iadd (imul b size) i)) sum) (lit 1e-7)))
              (range 0 size) x
  else x.

(** [bias_add_kernel]: adds [bias[i]] to column [i] of every row, in
    place.  ([idx / size] with [size = 0] is undefined in C; [Z.quot] and
    [Z.rem] give 0 and [idx] there.) *)
Definition bias_add_kernel (blockDim : dim3) (t : thread)
    (x bias : buffer F) (batch_size size : Z) : buffer F :=
  let idx := thread_index (dim_x (blockIdx t)) (dim_x blockDim) (dim_x (threadIdx t)) in
  let b := idiv idx size in
  let i := imod idx size in
  if (b <? batch_size) && (i <? size) then
    upd x idx (fadd (x idx) (bias i))
  else x.

(** [multiply_gradients_kernel]: grad1 *= grad2, element by element. *)
Definition multiply_gradients_kernel (blockDim : dim3) (t : thread)
    (grad1 grad2 : buffer F) (size : Z) : buffer F :=
  let idx := thread_index (dim_x (blockIdx t)) (dim_x blockDim) (dim_x (threadIdx t)) in
  if idx <? size then
    upd grad1 idx (fmul (grad1 idx) (grad2 idx))
  else grad1.

End Kernels.

(** ** Host code *)

Definition INPUT_SIZE : Z := 784.
Definition HIDDEN_SIZE : Z := 4096.
Definition OUTPUT_SIZE : Z := 10.
Definition BATCH_SIZE : Z := 32.

(** Arithmetic on [unsigned int], as in the grid computations on [dim3]
    members. *)
Definition u32 (z : Z) : Z := z mod 4294967296.
Definition uadd (a b : Z) : Z := u32 (a + b).
Definition usub (a b : Z) : Z := u32 (a - b).
Definition udiv (a b : Z) : Z := u32 a / u32 b.

(** The execution configurations the runtime accepts: no empty dimension, at
    most 1024 threads in a block, and the limits on the grid dimensions;
    [cudaGetLastError] reports any other launch as an error. *)
Definition valid_config (gridDim blockDim : dim3) : bool :=
  (0 <? dim_x gridDim) && (dim_x gridDim <=? INT_MAX) &&
  (0 <? dim_y gridDim) && (dim_y gridDim <=? 65535) &&
  (0 <? dim_x blockDim) && (0 <? dim_y blockDim) &&
  (dim_x blockDim * dim_y blockDim <=? 1024).

Section Host.
Context {F : Type} {SF : Scalar F}.

(** The order in which the device runs the threads of a launch. *)
Variable scheduler : dim3 -> dim3 -> list thread.

Record NeuralNetwork : Type := mkNeuralNetwork {
  weights1 : buffer F;
  weights2 : buffer F;
  bias1 : buffer F;
  bias2 : buffer F;
  grad_weights1 : buffer F;
  grad_weights2 : buffer F;
  grad_bias1 : buffer F;
  grad_bias2 : buffer F
}.

(** [kernel<<<gridDim, blockDim>>>(...)] followed by
    [CUDA_CHECK(cudaGetLastError())]: [None] is the exit of the process. *)
Definition launch {St : Type} (gridDim blockDim : dim3)
    (kernel : dim3 -> thread -> St -> St) (s : St) : option St :=
  if valid_config gridDim blockDim
  then Some (exec (kernel blockDim) (scheduler gridDim blockDim) s)
  else None.

(** The device buffers [forward] writes. *)
Record activations : Type := mkactivations {
  d_hidden : buffer F;
  d_output : buffer F
}.

Definition on_hidden (f : buffer F -> option (buffer F)) (s : activations)
    : option activations :=
  match f (d_hidden s) with
  | Some h => Some (mkactivations h (d_output s))
  | None => None
  end.

Definition on_output (f : buffer F -> buffer F -> option (buffer F))
    (s : activations) : option activations :=
  match f (d_hidden s) (d_output s) with
  | Some o => Some (mkactivations (d_hidden s) o)
  | None => None
  end.

(** The six launches of [forward], in program order. *)
Definition forward_steps (nn : NeuralNetwork) (d_input : buffer F)
    (batch_size : Z) : list (activations -> option activations) :=
  let block_size := mkdim3 32 32 in
  let grid_size :=
    mkdim3 (udiv (usub (uadd HIDDEN_SIZE (dim_x block_size)) 1) (dim_x block_size))
           (udiv (usub (uadd batch_size (dim_y block_size)) 1) (dim_y block_size)) in
  let grid_size2 :=
    mkdim3 (udiv (usub (uadd OUTPUT_SIZE (dim_x block_size)) 1) (dim_x block_size))
           (udiv (usub (uadd batch_size (dim_y block_size)) 1) (dim_y block_size)) in
  [ (* Input to Hidden (X @ W1) *)
    on_hidden (fun h =>
      launch grid_size block_size
        (fun bd t C => matmul_a_b_kernel bd t d_input (weights1 nn) C
                                         batch_size INPUT_SIZE HIDDEN_SIZE) h);
    (* Add bias1 *)
    on_hidden (fun h =>
      launch (mkdim3 (u32 (idiv (iadd (imul batch_size HIDDEN_SIZE) 255) 256)) 1)
             (mkdim3 256 1)
        (fun bd t x => bias_add_kernel bd t x (bias1 nn) batch_size HIDDEN_SIZE) h);
    (* Apply GELU *)
    on_hidden (fun h =>
      launch (mkdim3 (u32 (idiv (iadd (imul batch_size HIDDEN_SIZE) 255) 256)) 1)
             (mkdim3 256 1)
        (fun bd t x => gelu_kernel bd t x (imul batch_size HIDDEN_SIZE)) h);
    (* Hidden to Output (Hidden @ W2) *)
    on_output (fun h o =>
      launch grid_size2 block_size
        (fun bd t C => matmul_a_b_kernel bd t h (weights2 nn) C
                                         batch_size HIDDEN_SIZE OUTPUT_SIZE) o);
    (* Add bias2 *)
    on_output (fun _ o =>
      launch (mkdim3 (u32 (idiv (iadd (imul batch_size OUTPUT_SIZE) 255) 256)) 1)
             (mkdim3 256 1)
        (fun bd t x => bias_add_kernel bd t x (bias2 nn) batch_size OUTPUT_SIZE) o);
    (* Apply softmax *)
    on_output (fun _ o =>
      launch (mkdim3 (u32 batch_size) 1) (mkdim3 1 1)
        (fun bd t x => softmax_kernel bd t x batch_size OUTPUT_SIZE) o) ].

Fixpoint run_steps (steps : list (activations -> option activations))
    (s : activations) : option activations :=
  match steps with
  | [] => Some s
  | step :: rest =>
      match step s with
      | Some s' => run_steps rest s'
      | None => None
      end
  end.

(** [forward]: the launches are issued on one stream, so each starts after
    the one before it has completed. *)
Definition forward (nn : NeuralNetwork) (d_input d_hidden d_output : buffer F)
    (batch_size : Z) : option activations :=
  run_steps (forward_steps nn d_input batch_size)
            (mkactivations d_hidden d_output).

(** The state of the buffers after the first [n] launches of [forward]. *)
Definition forward_upto (n : nat) (nn : NeuralNetwork)
    (d_input d_hidden d_output : buffer F) (batch_size : Z)
    : option activations :=
  run_steps (firstn n (forward_steps nn d_input batch_size))
            (mkactivations d_hidden d_output).

(** [cross_entropy_loss]. *)
Definition cross_entropy_loss (output : buffer F) (labels : Z -> Z)
    (batch_size : Z) : F :=
  let total_loss :=
    fold_left (fun total_loss b =>
                 fsub total_loss
                      (logf (fmaxf (output (iadd (imul b OUTPUT_SIZE) (labels b)))
                                   (lit 1e-7))))
              (range 0 batch_size) (lit 0) in
  fdiv total_loss (of_int batch_size).

End Host.

(** ** Loading the data *)

(** A host function returns, or ends the process with [exit(status)]. *)
Inductive outcome (A : Type) : Type :=
| Returns (a : A)
| Exits (status : Z).
Arguments Returns {A} a.
Arguments Exits {A} status.

(** [size_t] has 64 bits; the conversion of an [int] to [size_t]. *)
Definition to_size_t (z : Z) : Z := z mod 18446744073709551616.

(** The files that can be opened for reading, each as the sequence of the
    complete elements it holds. *)
Definition file_system (T : Type) : Type := String.string -> option (list T).

(** [fread(ptr, sizeof(T), count, file)] on a file just opened: the elements
    stored and their number. *)
Definition fread {T : Type} (ptr : buffer T) (count : Z) (file : list T)
    : buffer T * Z :=
  let read := firstn (Z.to_nat count) file in
  (fun j => if 0 <=? j
            then match nth_error read (Z.to_nat j) with
                 | Some v => v
                 | None => ptr j
                 end
            else ptr j,
   Z.of_nat (length read)).

(** [load_data]. *)
Definition load_data {F : Type} (fs : file_system F) (filename : String.string)
    (data : buffer F) (size : Z) : outcome (buffer F) :=
  match fs filename with
  | None => Exits 1
  | Some file =>
      let '(data, read_size) := fread data (to_size_t size) file in
      if negb (read_size =? to_size_t size) then Exits 1 else Returns data
  end.

(** [load_labels]. *)
Definition load_labels (fs : file_system Z) (filename : String.string)
    (labels : buffer Z) (size : Z) : outcome (buffer Z) :=
  match fs filename with
  | None => Exits 1
  | Some file =>
      let '(labels, read_size) := fread labels (to_size_t size) file in
      if negb (read_size =? to_size_t size) then Exits 1 else Returns labels
  end.

(** ** Host initialisation *)

Section HostInit.
Context {F : Type} {SF : Scalar F}.

(** [rand()] of the C library: call number [n] of the process (counted from
    0) returns [rand n]; the state of the generator is the number of calls
    made so far.  [RAND_MAX] is the constant of stdlib.h. *)
Variable RAND_MAX : Z.
Variable rand : nat -> Z.


(** [initialize_bias]. *)
Definition initialize_bias (bias : buffer F) (size : Z) : buffer F :=
  fold_left (fun bias i => upd bias i (lit 0)) (range 0 size) bias.

End HostInit.

(** ** The two arithmetics *)

(** Exact arithmetic: the scalars are real numbers. *)
Module Exact.

#[export] Instance real_scalar : Scalar R := {|
  fadd := Rplus;
  fsub := Rminus;
  fmul := Rmult;
  fdiv := Rdiv;
  fmaxf := Rmax;
  expf := exp;
  logf := ln;
  tanhf := tanh;
  coshf := cosh;
  sqrtf := sqrt;
  lit := Q2R;
  of_int := IZR;
  two_over_pi := (2 / PI)%R
|}.

End Exact.

(** IEEE 754 binary32, round to nearest even.  The functions of the
  mathematical library ([expf], [logf], [tanhf], [coshf]) are parameters. *)
Module Binary32.

Definition prec : Z := 24.
Definition emax : Z := 128.

Definition float : Type := spec_float.

Definition is_nan (x : float) : bool :=
  match x with S754_nan => true | _ => false end.

Definition is_finite (x : float) : bool :=
  match x with S754_zero _ | S754_finite _ _ _ => true | _ => false end.

Definition is_zero (x : float) : bool :=
  match x with S754_zero _ => true | _ => false end.

(** [fmaxf]: a NaN operand is dropped. *)
Definition fmax (x y : float) : float :=
  match x, y with
  | S754_nan, _ => y
  | _, S754_nan => x
  | _, _ => if SFltb x y then y else x
  end.

(** The correctly rounded quotient of two integers, at a given precision. *)
Definition round_quotient (p e : Z) (num : Z) (den : positive) : float :=
  match num with
  | Z0 => S754_zero false
  | Zpos n => SFdiv p e (S754_finite false n 0) (S754_finite false den 0)
  | Zneg n => SFdiv p e (S754_finite true n 0) (S754_finite false den 0)
  end.

Definition of_Q (q : Q) : float := round_quotient prec emax (Qnum q) (Qden q).

Definition of_Z (z : Z) : float := binary_normalize prec emax z 0 false.

(** [M_PI] of math.h, a [double]. *)
Definition M_PI : float :=
  round_quotient 53 1024 314159265358979323846 100000000000000000000.

(** The conversion of a [double] to [float]. *)
Definition narrow (d : float) : float :=
  match d with
  | S754_finite s m e => binary_normalize prec emax (cond_Zopp s (Zpos m)) e s
  | _ => d
  end.

Definition two_over_pi32 : float :=
  narrow (SFdiv 53 1024 (round_quotient 53 1024 2 1) M_PI).

Section Libm.
Variables libm_expf libm_logf libm_tanhf libm_coshf : float -> float.

Definition binary32 : Scalar float := {|
  fadd := SFadd prec emax;
  fsub := SFsub prec emax;
  fmul := SFmul prec emax;
  fdiv := SFdiv prec emax;
  fmaxf := fmax;
  expf := libm_expf;
  logf := libm_logf;
  tanhf := libm_tanhf;
  coshf := libm_coshf;
  sqrtf := SFsqrt prec emax;
  lit := of_Q;
  of_int := of_Z;
  two_over_pi := two_over_pi32
|}.
End Libm.

End Binary32.

(** * The tensor-core benchmark *)

Module Wmma.

(** MMA matrix tile dimensions and GEMM configuration. *)
Definition M : Z := 16.
Definition N : Z := 16.
Definition K : Z := 16.
Definition M_TILES : Z := 256.
Definition N_TILES : Z := 256.
Definition K_TILES : Z := 256.
Definition M_TOTAL : Z := M * M_TILES.
Definition N_TOTAL : Z := N * N_TILES.
Definition K_TOTAL : Z := K * K_TILES.

(** The width of a warp of the device: the threads of a block are grouped
    into warps of 32 threads of consecutive linear index
    [threadIdx.x + threadIdx.y * blockDim.x]. *)
Definition warpSize : Z := 32.

Definition linear_index (blockDim threadIdx_ : dim3) : Z :=
  dim_x threadIdx_ + dim_y threadIdx_ * dim_x blockDim.

(** The warps of one block, each the list of its threads' [threadIdx]. *)
Definition block_warps (blockDim : dim3) : list (list dim3) :=
  let threads := dim_x blockDim * dim_y blockDim in
  map (fun w =>
         map (fun l => mkdim3 (l mod dim_x blockDim) (l / dim_x blockDim))
             (range (w * warpSize) (Z.min ((w + 1) * warpSize) threads)))
      (range 0 ((threads + warpSize - 1) / warpSize)).

(** The warps of a launch. *)
Definition grid_warps (gridDim blockDim : dim3) : list (list thread) :=
  flat_map (fun by_ =>
  flat_map (fun bx =>
  map (fun w => map (fun ti => mkthread (mkdim3 bx by_) ti) w)
      (block_warps blockDim))
      (range 0 (dim_x gridDim)))
      (range 0 (dim_y gridDim)).

(** A 16 x 16 fragment, by row and column. *)
Definition fragment (T : Type) : Type := Z -> Z -> T.

Section Kernel.
Context {F H : Type} {SF : Scalar F}.

(** The conversion of a [half] operand inside the multiply-accumulate. *)
Variable half2float : H -> F.

(** The macro [WARP_SIZE] of the source. *)
Variable WARP_SIZE : Z.

(** The interface of [nvcuda::wmma], on whole fragments: what a warp that
    calls an operation with the same arguments in all its threads gets. *)
Definition fill_fragment (v : F) : fragment F := fun _ _ => v.

Definition load_matrix_sync_row_major {T : Type} (p : buffer T) (offset ldm : Z)
    : fragment T :=
  fun i j => p (offset + i * ldm + j).

Definition load_matrix_sync_col_major {T : Type} (p : buffer T) (offset ldm : Z)
    : fragment T :=
  fun i j => p (offset + i + j * ldm).

Definition mma_sync (a b : fragment H) (c : fragment F) : fragment F :=
  fun i j =>
    fold_left (fun acc kk => fadd acc (fmul (half2float (a i kk)) (half2float (b kk j))))
              (range 0 K) (c i j).

Definition store_matrix_sync_row_major (p : buffer F) (offset ldm : Z)
    (c : fragment F) : buffer F :=
  fold_left (fun p i =>
               fold_left (fun p j => upd p (offset + i * ldm + j) (c i j))
                         (range 0 N) p)
            (range 0 M) p.

(** The tile a thread works on: [ix] and [iy] of the kernel. *)
Definition tile_ix (blockDim : dim3) (t : thread) : Z :=
  wrap (u32 (dim_x (blockIdx t) * dim_x blockDim + dim_x (threadIdx t)) / u32 WARP_SIZE).

Definition tile_iy (blockDim : dim3) (t : thread) : Z :=
  thread_index (dim_y (blockIdx t)) (dim_y blockDim) (dim_y (threadIdx t)).

(** The values of the loop counter in [for (k = 0; k < hi; k += step)]. *)
Definition strided (hi step : Z) : list Z :=
  map (fun s => s * step) (range 0 ((hi + step - 1) / step)).

(** [WMMAF16TensorCore], for a warp all of whose threads have the tile
    [(ix, iy)]; the state is the buffer [D]. *)
Definition WMMAF16TensorCore (ix iy : Z) (A B : buffer H) (C D : buffer F)
    : buffer F :=
  let ab_frag := fill_fragment (lit 0) in
  (* AB = A * B *)
  let a_row := imul ix M in
  let b_row := imul iy N in
  let ab_frag :=
    fold_left (fun ab_frag k =>
                 let a_col := k in
                 let b_col := k in
                 if (a_row <? M_TOTAL) && (a_col <? K_TOTAL) &&
                    (b_row <? K_TOTAL) && (b_col <? N_TOTAL)
                 then
                   let a_frag :=
                     load_matrix_sync_row_major A (a_col + imul a_row K_TOTAL) K_TOTAL in
                   let b_frag :=
                     load_matrix_sync_col_major B (b_col + imul b_row N_TOTAL) N_TOTAL in
                   mma_sync a_frag b_frag ab_frag
                 else ab_frag)
              (strided K_TOTAL K) ab_frag in
  (* D = AB + C *)
  let c_row := a_row in
  let c_col := b_row in
  if (c_row <? M_TOTAL) && (c_col <? N_TOTAL) then
    let c_frag := load_matrix_sync_row_major C (c_col + imul c_row N_TOTAL) N_TOTAL in
    let c_frag := fun i j => fadd (ab_frag i j) (c_frag i j) in
    store_matrix_sync_row_major D (c_col + imul c_row N_TOTAL) N_TOTAL c_frag
  else D.

(** The operations of [wmma] are collective: all the threads of a warp must
    pass the same arguments.  The tile of a warp, when its threads agree. *)
Definition warp_tile (blockDim : dim3) (w : list thread) : option (Z * Z) :=
  match w with
  | [] => None
  | t :: rest =>
      if forallb (fun t' => (tile_ix blockDim t' =? tile_ix blockDim t) &&
                            (tile_iy blockDim t' =? tile_iy blockDim t)) rest
      then Some (tile_ix blockDim t, tile_iy blockDim t)
      else None
  end.

(** One warp of the launch; [None]: the behaviour is undefined. *)
Definition run_warp (blockDim : dim3) (A B : buffer H) (C : buffer F)
    (D : option (buffer F)) (w : list thread) : option (buffer F) :=
  match D, warp_tile blockDim w with
  | Some D, Some (ix, iy) => Some (WMMAF16TensorCore ix iy A B C D)
  | _, _ => None
  end.

(** The launch configuration of [CalcWMMA]. *)
Definition CalcWMMA_blockDim : dim3 := mkdim3 (u32 (4 * WARP_SIZE)) 4.

Definition CalcWMMA_gridDim : dim3 :=
  let blockDim := CalcWMMA_blockDim in
  mkdim3 (udiv (uadd M_TOTAL (usub (udiv (u32 (M * dim_x blockDim)) WARP_SIZE) 1))
               (udiv (u32 (M * dim_x blockDim)) WARP_SIZE))
         (udiv (usub (uadd N_TOTAL (u32 (N * dim_y blockDim))) 1)
               (u32 (N * dim_y blockDim))).

(** [CalcWMMA]: the buffer [D] after the launch, the warps run in the order
    [sched]. *)
Definition CalcWMMA (sched : list (list thread)) (A B : buffer H) (C D : buffer F)
    : option (buffer F) :=
  fold_left (run_warp CalcWMMA_blockDim A B C) sched (Some D).

End Kernel.

(** The matrices of the benchmark. *)
Section Init.
Context {F H : Type} {SF : Scalar F}.

(** [__float2half], and the calls of [rand()] as in the host code of the
    perceptron. *)
Variable float2half : F -> H.
Variable rand : nat -> Z.



End Init.

End Wmma.

Import Exact.

(** * The quantities of the specification *)

(** The global indices of a thread of the grid. *)
Definition global_x (bd : dim3) (t : thread) : Z :=
  dim_x (blockIdx t) * dim_x bd + dim_x (threadIdx t).
Definition global_y (bd : dim3) (t : thread) : Z :=
  dim_y (blockIdx t) * dim_y bd + dim_y (threadIdx t).

Definition row_of (bd : dim3) (t : thread) : Z :=
  thread_index (dim_y (blockIdx t)) (dim_y bd) (dim_y (threadIdx t)).
Definition col_of (bd : dim3) (t : thread) : Z :=
  thread_index (dim_x (blockIdx t)) (dim_x bd) (dim_x (threadIdx t)).

Definition in_row (base size j : Z) : bool := (base <=? j) && (j <? base + size).

(** [confined kernel sched inside region]: a thread of the schedule whose
    index is not [inside] returns the buffer as it is, and the launch leaves
    every cell outside [region] as it was. *)
Definition confined {F : Type} (kernel : thread -> buffer F -> buffer F)
    (sched : list thread) (inside : thread -> bool) (region : Z -> Prop) : Prop :=
  (forall t x, In t sched -> inside t = false -> kernel t x = x) /\
  (forall x j, ~ region j -> exec kernel sched x j = x j).

(** A kernel in which a thread that passes the guard stores one value, which
    does not depend on the output buffer, at one address. *)
Definition scatter {F : Type} (guard : thread -> bool) (addr : thread -> Z)
    (val : thread -> F) (t : thread) (C : buffer F) : buffer F :=
  if guard t then upd C (addr t) (val t) else C.

(** What a successful load leaves: the first [size] elements of the file in
    the first [size] cells, the other cells as they were. *)
Definition loaded {T : Type} (file : list T) (size : Z) (before after : buffer T) : Prop :=
  (forall i, 0 <= i < size -> nth_error file (Z.to_nat i) = Some (after i)) /\
  (forall j, ~ 0 <= j < size -> after j = before j).

Section Specification.
Context {F : Type} {SF : Scalar F}.

(** The sum of [f 0], ..., [f (n-1)], added to [0.0f] in this order. *)
Fixpoint sum_upto (n : nat) (f : Z -> F) : F :=
  match n with
  | O => lit 0
  | S n' => fadd (sum_upto n' f) (f (Z.of_nat n'))
  end.

(** Element (r, c) of the product of the m x n matrix [A] and the n x k
    matrix [B], both row-major. *)
Definition matrix_product (A B : buffer F) (n k : Z) (r c : Z) : F :=
  sum_upto (Z.to_nat n) (fun i => fmul (A (r * n + i)) (B (i * k + c))).

(** The transpose of a row-major matrix of [rows] rows and [cols] columns,
    row-major again. *)
Definition transpose (rows cols : Z) (M : buffer F) : buffer F :=
  fun j => M ((j mod rows) * cols + j / rows).

(** The flat offsets of the output of a GEMM kernel, and the conditions
    under which no index computation of the kernel overflows. *)
Definition gemm_guard (bd : dim3) (rows cols : Z) (t : thread) : bool :=
  (global_y bd t <? rows) && (global_x bd t <? cols).

Definition gemm_addr (bd : dim3) (cols : Z) (t : thread) : Z :=
  global_y bd t * cols + global_x bd t.

Definition a_b_cell (A B : buffer F) (n k : Z) (j : Z) : F :=
  matrix_product A B n k (j / k) (j mod k).

Definition a_bt_cell (A B : buffer F) (n k : Z) (j : Z) : F :=
  sum_upto (Z.to_nat n)
           (fun i => fmul (A ((j / k) * n + i)) (B ((j mod k) * n + i))).

Definition at_b_cell (A B : buffer F) (m n k : Z) (j : Z) : F :=
  sum_upto (Z.to_nat m)
           (fun i => fmul (A (i * n + j / k)) (B (i * k + j mod k))).

(** The value [gelu_kernel] stores for the value [x_val] it loads. *)
Definition gelu_cdf (x_val : F) : F :=
  fmul (lit 0.5)
       (fadd (lit 1)
             (tanhf (fmul (lit 0.7978845608)
                          (fadd x_val
                                (fmul (fmul (fmul (lit 0.044715) x_val) x_val) x_val))))).

Definition gelu (x_val : F) : F := fmul x_val (gelu_cdf x_val).

(** The value [dgelu_kernel] stores for the value [x_val] it loads. *)
Definition dgelu (x_val : F) : F :=
  fadd (gelu_cdf x_val)
       (fmul x_val
             (fmul (fmul (lit 0.5) (sqrtf two_over_pi))
                   (expf (fmul (fmul (lit (-0.5)) x_val) x_val)))).

(** The cells a thread of a one-dimensional element-wise kernel touches. *)
Definition owns_index (bd : dim3) (size : Z) (t : thread) (j : Z) : bool :=
  (global_x bd t <? size) && (j =? global_x bd t).

(** The row of [size] logits that starts at offset [base]. *)
Definition row_max (x : buffer F) (base size : Z) : F :=
  fold_left (fun max_val i => fmaxf max_val (x (base + i))) (range 1 size) (x base).

Definition softmax_exp (x : buffer F) (base size i : Z) : F :=
  expf (fsub (x (base + i)) (row_max x base size)).

Definition softmax_sum (x : buffer F) (base size : Z) : F :=
  sum_upto (Z.to_nat size) (softmax_exp x base size).

Definition softmax_out (x : buffer F) (base size i : Z) : F :=
  fmaxf (fdiv (softmax_exp x base size i) (softmax_sum x base size)) (lit 1e-7).

(** The logits [forward] hands to the softmax kernel: hidden W2 + b2. *)
Definition forward_logits (nn : NeuralNetwork (F := F))
    (hidden : buffer F) (j : Z) : F :=
  fadd (matrix_product hidden (weights2 nn) HIDDEN_SIZE OUTPUT_SIZE
                       (j / OUTPUT_SIZE) (j mod OUTPUT_SIZE))
       (bias2 nn (j mod OUTPUT_SIZE)).

End Specification.

(** ** Values of binary32 *)

Section Binary32Values.
Import Binary32.

Definition pos_zero : float := S754_zero false.

(** The literals [1.0f], [0.1f] and [1e-7f]. *)
Definition one32 : float := S754_finite false 8388608 (-23).
Definition tenth32 : float := S754_finite false 13421773 (-27).
Definition floor32 : float := S754_finite false 14073749 (-47).

Definition zeros (x : buffer float) (n : Z) : Prop :=
  forall j, 0 <= j < n -> x j = pos_zero.

End Binary32Values.

(** A stand-in for the mathematical library, with [expf(0) = 1] and
    [tanhf(0) = 0]. *)
Definition sample_expf (x : Binary32.float) : Binary32.float := one32.
Definition sample_tanhf (x : Binary32.float) : Binary32.float := x.

Definition sample_scalar : Scalar Binary32.float :=
  Binary32.binary32 sample_expf (fun x => x) sample_tanhf (fun x => x).

(** Parameters with zero biases and all weights 1. *)
Definition unit_network : NeuralNetwork :=
  mkNeuralNetwork (fun _ => one32) (fun _ => one32)
                  (fun _ => pos_zero) (fun _ => pos_zero)
                  (fun _ => pos_zero) (fun _ => pos_zero)
                  (fun _ => pos_zero) (fun _ => pos_zero).

(** The same, with one infinite weight in the first layer. *)
Definition infinite_weight_network : NeuralNetwork :=
  mkNeuralNetwork (fun j => if j =? 0 then S754_infinity false else one32)
                  (fun _ => one32)
                  (fun _ => pos_zero) (fun _ => pos_zero)
                  (fun _ => pos_zero) (fun _ => pos_zero)
                  (fun _ => pos_zero) (fun _ => pos_zero).

(** ** Formulas over the reals *)

Section ExactFormulas.
Local Open Scope R_scope.





(** A network over the reals with distinct parameters. *)
Definition ramp_network : NeuralNetwork (F := R) :=
  mkNeuralNetwork (fun j => IZR j) (fun j => IZR (2 * j))
                  (fun j => IZR (j + 1)) (fun j => IZR (j + 2))
                  (fun _ => 0%R) (fun _ => 0%R) (fun _ => 0%R) (fun _ => 0%R).

End ExactFormulas.

(** ** The tensor-core benchmark *)

Section WmmaSpecification.
Import Wmma.
Context {F H : Type} {SF : Scalar F}.
Variable half2float : H -> F.

(** The first warp of the first block of the launch of [CalcWMMA]. *)
Definition first_warp : list thread :=
  map (fun l => mkthread (mkdim3 0 0) (mkdim3 (l mod 16) (l / 16))) (range 0 32).

(** The cells of the tile stored at [offset] with leading dimension [ldm]. *)
Definition in_tile (offset ldm q : Z) : bool :=
  (0 <=? q - offset) && ((q - offset) / ldm <? M) && ((q - offset) mod ldm <? N).

(** Element (r, c) of the product of the row-major [A] and the column-major
    [B], the terms accumulated from 0.0f along the contracted dimension. *)
Definition product_col_major (A B : buffer H) (r c : Z) : F :=
  sum_upto (Z.to_nat K_TOTAL)
           (fun k => fmul (half2float (A (r * K_TOTAL + k)))
                          (half2float (B (k + c * N_TOTAL)))).

(** Warp [w] of block [(bx, by_)], for blocks of 128 x 4 threads. *)
Definition warp_threads (bx by_ w : Z) : list thread :=
  map (fun ti => mkthread (mkdim3 bx by_) ti)
      (map (fun l => mkdim3 (l mod 128) (l / 128)) (range (w * 32) (w * 32 + 32))).

(** The tile of a warp on which its threads agree. *)
Definition tile_of (w : list thread) : Z * Z :=
  match warp_tile 32 (mkdim3 128 4) w with
  | Some tile => tile
  | None => (0, 0)
  end.

End WmmaSpecification.


(** * Properties *)

(** ** Integers, ranges and grids *)

Lemma wrap_small (z : Z) : -2147483648 <= z <= INT_MAX -> wrap z = z.
Proof.
  unfold wrap, INT_MAX; intros H.
  rewrite Z.mod_small by lia. lia.
Qed.

Lemma iadd_imul_small (a b c : Z) :
  -2147483648 <= a * b <= INT_MAX ->
  -2147483648 <= a * b + c <= INT_MAX ->
  iadd (imul a b) c = a * b + c.
Proof.
  intros H1 H2. unfold iadd, imul.
  rewrite (wrap_small (a * b)) by assumption.
  now apply wrap_small.
Qed.

Lemma thread_index_small (bi bd ti : Z) :
  0 <= bi * bd + ti <= INT_MAX -> thread_index bi bd ti = bi * bd + ti.
Proof.
  unfold thread_index, INT_MAX; intros H.
  rewrite Z.mod_small by lia.
  apply wrap_small. unfold INT_MAX. lia.
Qed.

Lemma In_range (lo hi i : Z) : In i (range lo hi) <-> lo <= i < hi.
Proof.
  unfold range. rewrite in_map_iff. split.
  - intros [j [<- Hj]]. apply in_seq in Hj. lia.
  - intros H. exists (Z.to_nat (i - lo)). split; [lia|].
    apply in_seq. lia.
Qed.

Lemma range_empty (lo hi : Z) : hi <= lo -> range lo hi = [].
Proof.
  intros H. unfold range.
  replace (Z.to_nat (hi - lo)) with O by lia. reflexivity.
Qed.

Lemma range_snoc (lo hi : Z) :
  lo <= hi -> range lo (hi + 1) = range lo hi ++ [hi].
Proof.
  intros H. unfold range.
  replace (Z.to_nat (hi + 1 - lo)) with (S (Z.to_nat (hi - lo))) by lia.
  rewrite seq_S, map_app. simpl. do 2 f_equal. lia.
Qed.

Lemma range_cons (lo hi : Z) :
  lo < hi -> range lo hi = lo :: range (lo + 1) hi.
Proof.
  intros H. unfold range.
  replace (Z.to_nat (hi - lo)) with (S (Z.to_nat (hi - (lo + 1)))) by lia.
  simpl. f_equal; [lia|].
  rewrite <- seq_shift, map_map. apply map_ext. intros; lia.
Qed.

Lemma NoDup_range (lo hi : Z) : NoDup (range lo hi).
Proof.
  unfold range. apply Finite.Injective_map_NoDup.
  - intros a b H. lia.
  - apply seq_NoDup.
Qed.

Lemma In_grid_threads (g b : dim3) (t : thread) :
  In t (grid_threads g b) <->
  (0 <= dim_x (blockIdx t) < dim_x g /\ 0 <= dim_y (blockIdx t) < dim_y g) /\
  (0 <= dim_x (threadIdx t) < dim_x b /\ 0 <= dim_y (threadIdx t) < dim_y b).
Proof.
  unfold grid_threads. split.
  - intros H.
    apply in_flat_map in H as [by_ [Hby H]].
    apply in_flat_map in H as [bx [Hbx H]].
    apply in_flat_map in H as [ty [Hty H]].
    apply in_map_iff in H as [tx [<- Htx]].
    apply In_range in Hby, Hbx, Hty, Htx. simpl. lia.
  - intros [[Hbx Hby] [Htx Hty]].
    destruct t as [[bx by_] [tx ty]]; simpl in *.
    apply in_flat_map; exists by_; split; [now apply In_range|].
    apply in_flat_map; exists bx; split; [now apply In_range|].
    apply in_flat_map; exists ty; split; [now apply In_range|].
    apply in_map_iff; exists tx; split; [reflexivity|now apply In_range].
Qed.

Lemma launch_fits_spec (g b : dim3) :
  launch_fits g b = true <->
  (0 < dim_x b /\ 0 < dim_y b /\ 0 <= dim_x g /\ 0 <= dim_y g /\
   dim_x g * dim_x b <= INT_MAX + 1 /\ dim_y g * dim_y b <= INT_MAX + 1).
Proof.
  unfold launch_fits. rewrite !andb_true_iff, !Z.ltb_lt, !Z.leb_le. tauto.
Qed.

Lemma global_in_grid (g b : dim3) (t : thread) :
  launch_fits g b = true -> In t (grid_threads g b) ->
  0 <= global_x b t < dim_x g * dim_x b /\ global_x b t <= INT_MAX /\
  0 <= global_y b t < dim_y g * dim_y b /\ global_y b t <= INT_MAX.
Proof.
  intros Hf Ht. apply launch_fits_spec in Hf. apply In_grid_threads in Ht.
  unfold global_x, global_y. nia.
Qed.

Lemma thread_index_x (g b : dim3) (t : thread) :
  launch_fits g b = true -> In t (grid_threads g b) ->
  thread_index (dim_x (blockIdx t)) (dim_x b) (dim_x (threadIdx t)) = global_x b t.
Proof.
  intros Hf Ht. destruct (global_in_grid g b t Hf Ht) as (H1 & H2 & _).
  apply thread_index_small. unfold global_x in *. lia.
Qed.

Lemma thread_index_y (g b : dim3) (t : thread) :
  launch_fits g b = true -> In t (grid_threads g b) ->
  thread_index (dim_y (blockIdx t)) (dim_y b) (dim_y (threadIdx t)) = global_y b t.
Proof.
  intros Hf Ht. destruct (global_in_grid g b t Hf Ht) as (_ & _ & H1 & H2).
  apply thread_index_small. unfold global_y in *. lia.
Qed.

(** Every point of the rectangle the grid covers is the global index of one
    of its threads. *)
Lemma grid_covers (g b : dim3) (gx gy : Z) :
  launch_fits g b = true ->
  0 <= gx < dim_x g * dim_x b -> 0 <= gy < dim_y g * dim_y b ->
  exists t, In t (grid_threads g b) /\ global_x b t = gx /\ global_y b t = gy.
Proof.
  intros Hf Hx Hy. apply launch_fits_spec in Hf.
  destruct Hf as (Hbx & Hby & Hgx & Hgy & _).
  exists (mkthread (mkdim3 (gx / dim_x b) (gy / dim_y b))
                   (mkdim3 (gx mod dim_x b) (gy mod dim_y b))).
  split; [|split].
  - apply In_grid_threads. simpl.
    pose proof (Z.mod_pos_bound gx (dim_x b) Hbx).
    pose proof (Z.mod_pos_bound gy (dim_y b) Hby).
    assert (0 <= gx / dim_x b) by (apply Z.div_pos; lia).
    assert (0 <= gy / dim_y b) by (apply Z.div_pos; lia).
    assert (gx / dim_x b < dim_x g)
      by (apply Z.div_lt_upper_bound; lia).
    assert (gy / dim_y b < dim_y g)
      by (apply Z.div_lt_upper_bound; lia).
    lia.
  - unfold global_x; simpl. pose proof (Z.div_mod gx (dim_x b)). lia.
  - unfold global_y; simpl. pose proof (Z.div_mod gy (dim_y b)). lia.
Qed.

(** ** Running the threads of a schedule *)

Lemma exec_app {St : Type} (kernel : thread -> St -> St) (l1 l2 : list thread) (s : St) :
  exec kernel (l1 ++ l2) s = exec kernel l2 (exec kernel l1 s).
Proof. unfold exec. apply fold_left_app. Qed.

Lemma exec_cons {St : Type} (kernel : thread -> St -> St) (t : thread)
    (l : list thread) (s : St) :
  exec kernel (t :: l) s = exec kernel l (kernel t s).
Proof. reflexivity. Qed.

Lemma exec_ext {St : Type} (k1 k2 : thread -> St -> St) (l : list thread) (s : St) :
  (forall t s, In t l -> k1 t s = k2 t s) -> exec k1 l s = exec k2 l s.
Proof.
  revert s. induction l as [|t l IH]; intros s H; [reflexivity|].
  simpl. rewrite H by (now left). apply IH. intros; apply H; now right.
Qed.

Lemma upd_same {F : Type} (b : buffer F) (i : Z) (v : F) : upd b i v i = v.
Proof. unfold upd. now rewrite Z.eqb_refl. Qed.

Lemma upd_other {F : Type} (b : buffer F) (i j : Z) (v : F) :
  j <> i -> upd b i v j = b j.
Proof. unfold upd. intros H. apply Z.eqb_neq in H. now rewrite H. Qed.

Section Scatter.
Context {F : Type}.

Variables (guard : thread -> bool) (addr : thread -> Z) (val : thread -> F).

Lemma exec_scatter_frame (sched : list thread) (C : buffer F) (j : Z) :
  (forall t, In t sched -> guard t = true -> addr t <> j) ->
  exec (scatter guard addr val) sched C j = C j.
Proof.
  revert C. induction sched as [|t l IH]; intros C H; [reflexivity|].
  simpl. rewrite IH by (intros; apply H; [now right|assumption]).
  unfold scatter. destruct (guard t) eqn:Hg; [|reflexivity].
  apply upd_other. intros E. now apply (H t (or_introl eq_refl) Hg).
Qed.

Lemma exec_scatter_hit (sched : list thread) (C : buffer F) (j : Z) (v : F) :
  (forall t, In t sched -> guard t = true -> addr t = j -> val t = v) ->
  (exists t, In t sched /\ guard t = true /\ addr t = j) ->
  exec (scatter guard addr val) sched C j = v.
Proof.
  revert C. induction sched as [|t l IH] using rev_ind; intros C Hv [t0 [Hin [Hg Ha]]].
  - destruct Hin.
  - rewrite exec_app. simpl. unfold scatter at 1.
    destruct (guard t) eqn:Hgt.
    + destruct (Z.eq_dec (addr t) j) as [E|E].
      * rewrite E, upd_same. symmetry.
        rewrite <- (Hv t); auto. apply in_or_app; right; now left.
      * rewrite upd_other by congruence.
        apply IH.
        -- intros; apply Hv; auto. apply in_or_app; now left.
        -- apply in_app_or in Hin as [Hin|[<-|[]]];
             [exists t0; auto | congruence].
    + apply IH.
      * intros; apply Hv; auto. apply in_or_app; now left.
      * apply in_app_or in Hin as [Hin|[<-|[]]];
          [exists t0; auto | congruence].
Qed.
End Scatter.

Lemma fold_left_ext_in {A B : Type} (f g : A -> B -> A) (l : list B) (a : A) :
  (forall a x, In x l -> f a x = g a x) -> fold_left f l a = fold_left g l a.
Proof.
  revert a. induction l as [|x l IH]; intros a H; [reflexivity|].
  simpl. rewrite H by (now left). apply IH. intros; apply H; now right.
Qed.

Lemma exec_scatter_cases {F : Type} (guard : thread -> bool) (addr : thread -> Z)
    (sched : list thread) (j : Z) :
  (forall t, In t sched -> guard t = true -> addr t <> j) \/
  (exists t, In t sched /\ guard t = true /\ addr t = j).
Proof.
  induction sched as [|t l [IH|[t0 [H1 H2]]]].
  - left. intros t [].
  - destruct (guard t) eqn:Hg.
    + destruct (Z.eq_dec (addr t) j) as [E|E].
      * right. exists t. split; [now left|auto].
      * left. intros t' [<-|Hin] Hg'; [assumption|now apply IH].
    + left. intros t' [<-|Hin] Hg'; [congruence|now apply IH].
  - right. exists t0. split; [now right|assumption].
Qed.

(** ** The matrix products *)

Section Gemm.
Context {F : Type} {SF : Scalar F}.

Lemma sum_upto_ext (n : nat) (f g : Z -> F) :
  (forall i, 0 <= i < Z.of_nat n -> f i = g i) -> sum_upto n f = sum_upto n g.
Proof.
  induction n as [|n IH]; intros H; [reflexivity|].
  simpl. rewrite IH by (intros; apply H; lia).
  rewrite (H (Z.of_nat n)) by lia. reflexivity.
Qed.

Lemma accumulate_loop (f : Z -> F) (n : Z) :
  fold_left (fun sum i => fadd sum (f i)) (range 0 n) (lit 0)
  = sum_upto (Z.to_nat n) f.
Proof.
  unfold range. rewrite Z.sub_0_r.
  induction (Z.to_nat n) as [|p IH]; [reflexivity|].
  rewrite seq_S, map_app, fold_left_app, IH. reflexivity.
Qed.

Lemma cell_coords (k r c : Z) :
  0 <= c < k -> (r * k + c) / k = r /\ (r * k + c) mod k = c.
Proof.
  intros H. split.
  - rewrite Z.add_comm, Z.div_add by lia. rewrite Z.div_small by lia. lia.
  - rewrite Z.add_comm, Z.mod_add by lia. now apply Z.mod_small.
Qed.

Lemma transpose_at (rows cols : Z) (M : buffer F) (r c : Z) :
  0 <= r < rows -> transpose rows cols M (c * rows + r) = M (r * cols + c).
Proof.
  intros H. unfold transpose.
  destruct (cell_coords rows c r H) as [-> ->]. reflexivity.
Qed.

Ltac gemm_scatter g Hf Ht :=
  rewrite (thread_index_y g _ _ Hf Ht), (thread_index_x g _ _ Hf Ht);
  destruct (global_in_grid g _ _ Hf Ht) as (Hx & _ & Hy & _);
  unfold scatter, gemm_guard, gemm_addr;
  destruct (_ && _) eqn:Hg; [|reflexivity];
  apply andb_true_iff in Hg as [Hr Hc];
  apply Z.ltb_lt in Hr, Hc.

Lemma matmul_a_b_scatter (g b : dim3) (t : thread) (A B C : buffer F) (m n k : Z) :
  launch_fits g b = true -> In t (grid_threads g b) ->
  0 <= n -> m * n <= INT_MAX -> n * k <= INT_MAX -> m * k <= INT_MAX ->
  matmul_a_b_kernel b t A B C m n k
  = scatter (gemm_guard b m k) (gemm_addr b k)
            (fun t => a_b_cell A B n k (gemm_addr b k t)) t C.
Proof.
  intros Hf Ht Hn Hmn Hnk Hmk. unfold matmul_a_b_kernel.
  gemm_scatter g Hf Ht.
  unfold INT_MAX in *.
  rewrite iadd_imul_small by (unfold INT_MAX; nia).
  f_equal. unfold a_b_cell, matrix_product.
  destruct (cell_coords k (global_y b t) (global_x b t)) as [-> ->]; [lia|].
  rewrite <- accumulate_loop. apply fold_left_ext_in.
  intros a i Hi. apply In_range in Hi.
  rewrite !iadd_imul_small by (unfold INT_MAX; nia). reflexivity.
Qed.

Lemma matmul_a_bt_scatter (g b : dim3) (t : thread) (A B C : buffer F) (m n k : Z) :
  launch_fits g b = true -> In t (grid_threads g b) ->
  0 <= n -> m * n <= INT_MAX -> n * k <= INT_MAX -> m * k <= INT_MAX ->
  matmul_a_bt_kernel b t A B C m n k
  = scatter (gemm_guard b m k) (gemm_addr b k)
            (fun t => a_bt_cell A B n k (gemm_addr b k t)) t C.
Proof.
  intros Hf Ht Hn Hmn Hnk Hmk. unfold matmul_a_bt_kernel.
  gemm_scatter g Hf Ht.
  unfold INT_MAX in *.
  rewrite iadd_imul_small by (unfold INT_MAX; nia).
  f_equal. unfold a_bt_cell.
  destruct (cell_coords k (global_y b t) (global_x b t)) as [-> ->]; [lia|].
  rewrite <- accumulate_loop. apply fold_left_ext_in.
  intros a i Hi. apply In_range in Hi.
  rewrite !iadd_imul_small by (unfold INT_MAX; nia). reflexivity.
Qed.

Lemma matmul_at_b_scatter (g b : dim3) (t : thread) (A B C : buffer F) (m n k : Z) :
  launch_fits g b = true -> In t (grid_threads g b) ->
  0 <= m -> m * n <= INT_MAX -> m * k <= INT_MAX -> n * k <= INT_MAX ->
  matmul_at_b_kernel b t A B C m n k
  = scatter (gemm_guard b n k) (gemm_addr b k)
            (fun t => at_b_cell A B m n k (gemm_addr b k t)) t C.
Proof.
  intros Hf Ht Hm Hmn Hmk Hnk. unfold matmul_at_b_kernel.
  gemm_scatter g Hf Ht.
  unfold INT_MAX in *.
  rewrite iadd_imul_small by (unfold INT_MAX; nia).
  f_equal. unfold at_b_cell.
  destruct (cell_coords k (global_y b t) (global_x b t)) as [-> ->]; [lia|].
  rewrite <- accumulate_loop. apply fold_left_ext_in.
  intros a i Hi. apply In_range in Hi.
  rewrite !iadd_imul_small by (unfold INT_MAX; nia). reflexivity.
Qed.

End Gemm.

Lemma schedule_of_in (g b : dim3) (sched : list thread) (t : thread) :
  schedule_of g b sched -> (In t sched <-> In t (grid_threads g b)).
Proof.
  intros H. split; intros Hin.
  - eapply Permutation_in; [apply Permutation_sym; exact H|exact Hin].
  - eapply Permutation_in; [exact H|exact Hin].
Qed.

Lemma exec_scatter_eq {F : Type} (guard : thread -> bool) (addr : thread -> Z)
    (cell1 cell2 : Z -> F) (s1 s2 : list thread) (C : buffer F) (j : Z) :
  (forall t, In t s1 <-> In t s2) ->
  (forall t, In t s1 -> guard t = true -> cell1 (addr t) = cell2 (addr t)) ->
  exec (scatter guard addr (fun t => cell1 (addr t))) s1 C j
  = exec (scatter guard addr (fun t => cell2 (addr t))) s2 C j.
Proof.
  intros Hs Hc.
  destruct (exec_scatter_cases (F:=F) guard addr s1 j) as [Hno|[t0 (Hin & Hg & Ha)]].
  - rewrite !exec_scatter_frame; auto.
    intros t Ht. apply Hno. now apply Hs.
  - rewrite (exec_scatter_hit guard addr _ s1 C j (cell1 j)).
    + symmetry. apply exec_scatter_hit.
      * intros t Ht Hgt <-. symmetry. apply Hc; auto. now apply Hs.
      * exists t0. split; [now apply Hs|auto].
    + now intros t _ _ <-.
    + exists t0. auto.
Qed.

(** The GEMM kernels write inside the output matrix only. *)
Lemma gemm_addr_in_output (g b : dim3) (rows cols : Z) (t : thread) :
  launch_fits g b = true -> In t (grid_threads g b) ->
  gemm_guard b rows cols t = true ->
  0 <= global_y b t < rows /\ 0 <= global_x b t < cols /\
  0 <= gemm_addr b cols t < rows * cols.
Proof.
  intros Hf Ht Hg.
  destruct (global_in_grid g b t Hf Ht) as (Hx & _ & Hy & _).
  unfold gemm_guard in Hg. apply andb_true_iff in Hg as [Hr Hc].
  apply Z.ltb_lt in Hr, Hc. unfold gemm_addr. nia.
Qed.

Lemma matmul_a_b_exec {F : Type} {SF : Scalar F}
    (A B C : buffer F) (m n k : Z) (g b : dim3) (sched : list thread) :
  schedule_of g b sched -> launch_fits g b = true ->
  0 <= n -> m * n <= INT_MAX -> n * k <= INT_MAX -> m * k <= INT_MAX ->
  m <= dim_y g * dim_y b -> k <= dim_x g * dim_x b ->
  forall r c, 0 <= r < m -> 0 <= c < k ->
    exec (fun t C => matmul_a_b_kernel b t A B C m n k) sched C (r * k + c)
    = matrix_product A B n k r c.
Proof.
  intros Hs Hf Hn Hmn Hnk Hmk Hy Hx r c Hr Hc.
  rewrite (exec_ext _ (scatter (gemm_guard b m k) (gemm_addr b k)
                               (fun t => a_b_cell A B n k (gemm_addr b k t)))).
  2:{ intros t s Ht. apply (matmul_a_b_scatter g); auto.
      now apply (schedule_of_in g b sched). }
  rewrite (exec_scatter_hit _ _ _ sched C (r * k + c) (a_b_cell A B n k (r * k + c))).
  - unfold a_b_cell. now destruct (cell_coords k r c Hc) as [-> ->].
  - now intros t _ _ ->.
  - destruct (grid_covers g b c r Hf) as [t (Ht & Htx & Hty)]; [lia|lia|].
    exists t. split; [now apply (schedule_of_in g b sched)|].
    unfold gemm_guard, gemm_addr. rewrite Htx, Hty. split; [|reflexivity].
    apply andb_true_iff. split; apply Z.ltb_lt; lia.
Qed.

(** C1: on a grid that covers the m x k output, the plain GEMM kernel leaves
    in every element (r, c) of C the sum over i < n of A[r,i] * B[i,c],
    whatever C held before the launch. *)
Theorem matmul_a_b_computes_product {F : Type} {SF : Scalar F}
    (A B C : buffer F) (m n k : Z) (g b : dim3) (sched : list thread) :
  schedule_of g b sched -> launch_fits g b = true ->
  0 <= n -> m * n <= INT_MAX -> n * k <= INT_MAX -> m * k <= INT_MAX ->
  m <= dim_y g * dim_y b -> k <= dim_x g * dim_x b ->
  forall r c, 0 <= r < m -> 0 <= c < k ->
    exec (fun t C => matmul_a_b_kernel b t A B C m n k) sched C (r * k + c)
    = matrix_product A B n k r c.
Proof. apply matmul_a_b_exec. Qed.

Lemma matmul_a_b_computes_product_witness :
  exec (fun t C => matmul_a_b_kernel (mkdim3 2 2) t
                     (fun i => IZR i) (fun i => IZR (i + 1)) C 2 3 2)
       (grid_threads (mkdim3 1 1) (mkdim3 2 2)) (fun _ => 7%R) (1 * 2 + 1)
  = matrix_product (fun i => IZR i) (fun i => IZR (i + 1)) 3 2 1 1.
Proof.
  apply (matmul_a_b_computes_product (SF := Exact.real_scalar)
           _ _ _ 2 3 2 (mkdim3 1 1) (mkdim3 2 2));
    try reflexivity; try (unfold INT_MAX; simpl; lia).
  apply Permutation_refl.
Defined.

(** C6: the transpose-right kernel on A and B leaves the output buffer the
    plain kernel leaves on A and the transpose of B, and the transpose-left
    kernel on A and B the one the plain kernel leaves on the transpose of A
    and B. *)
Theorem transposed_gemm_is_gemm_of_transpose {F : Type} {SF : Scalar F}
    (A B C : buffer F) (m n k : Z) (g b : dim3) (s1 s2 : list thread) :
  schedule_of g b s1 -> schedule_of g b s2 -> launch_fits g b = true ->
  0 <= m -> 0 <= n ->
  m * n <= INT_MAX -> n * k <= INT_MAX -> m * k <= INT_MAX ->
  (forall j,
     exec (fun t C => matmul_a_bt_kernel b t A B C m n k) s1 C j
     = exec (fun t C => matmul_a_b_kernel b t A (transpose k n B) C m n k) s2 C j) /\
  (forall j,
     exec (fun t C => matmul_at_b_kernel b t A B C m n k) s1 C j
     = exec (fun t C => matmul_a_b_kernel b t (transpose m n A) B C n m k) s2 C j).
Proof.
  intros Hs1 Hs2 Hf Hm Hn Hmn Hnk Hmk.
  assert (Hs : forall t, In t s1 <-> In t s2).
  { intros t. rewrite (schedule_of_in g b s1), (schedule_of_in g b s2); tauto. }
  split; intros j.
  - rewrite (exec_ext _ (scatter (gemm_guard b m k) (gemm_addr b k)
                                 (fun t => a_bt_cell A B n k (gemm_addr b k t))) s1).
    2:{ intros t s Ht. apply (matmul_a_bt_scatter g); auto.
        now apply (schedule_of_in g b s1). }
    rewrite (exec_ext _ (scatter (gemm_guard b m k) (gemm_addr b k)
                                 (fun t => a_b_cell A (transpose k n B) n k (gemm_addr b k t))) s2).
    2:{ intros t s Ht. apply (matmul_a_b_scatter g); auto.
        now apply (schedule_of_in g b s2). }
    apply (exec_scatter_eq _ _ (a_bt_cell A B n k)
                           (a_b_cell A (transpose k n B) n k)); [exact Hs|].
    intros t Ht Hg. apply (schedule_of_in g b s1) in Ht; [|assumption].
    destruct (gemm_addr_in_output g b m k t Hf Ht Hg) as (Hy & Hx & _).
    unfold a_bt_cell, a_b_cell, matrix_product, gemm_addr.
    destruct (cell_coords k (global_y b t) (global_x b t) Hx) as [-> ->].
    apply sum_upto_ext. intros i Hi.
    now rewrite transpose_at.
  - rewrite (exec_ext _ (scatter (gemm_guard b n k) (gemm_addr b k)
                                 (fun t => at_b_cell A B m n k (gemm_addr b k t))) s1).
    2:{ intros t s Ht. apply (matmul_at_b_scatter g); auto.
        now apply (schedule_of_in g b s1). }
    rewrite (exec_ext _ (scatter (gemm_guard b n k) (gemm_addr b k)
                                 (fun t => a_b_cell (transpose m n A) B m k (gemm_addr b k t))) s2).
    2:{ intros t s Ht. apply (matmul_a_b_scatter g); auto; try lia.
        now apply (schedule_of_in g b s2). }
    apply (exec_scatter_eq _ _ (at_b_cell A B m n k)
                           (a_b_cell (transpose m n A) B m k)); [exact Hs|].
    intros t Ht Hg. apply (schedule_of_in g b s1) in Ht; [|assumption].
    destruct (gemm_addr_in_output g b n k t Hf Ht Hg) as (Hy & Hx & _).
    unfold at_b_cell, a_b_cell, matrix_product, gemm_addr.
    destruct (cell_coords k (global_y b t) (global_x b t) Hx) as [-> ->].
    apply sum_upto_ext. intros i Hi.
    rewrite transpose_at by lia. reflexivity.
Qed.

(** ** Kernels whose threads own disjoint cells *)

Lemma exec_frame {F : Type} (kernel : thread -> buffer F -> buffer F)
    (sched : list thread) (x : buffer F) (j : Z) :
  (forall t x, In t sched -> kernel t x j = x j) ->
  exec kernel sched x j = x j.
Proof.
  revert x. induction sched as [|t l IH]; intros x H; [reflexivity|].
  simpl. rewrite IH by (intros; apply H; now right).
  apply H. now left.
Qed.

Section Owners.
Context {F : Type}.
Variable kernel : thread -> buffer F -> buffer F.

(** [owner t j]: the thread [t] may read and write cell [j]. *)
Variable owner : thread -> Z -> bool.

(** The threads of the launch. *)
Variable launched : thread -> Prop.

Hypothesis owner_frame :
  forall t x j, launched t -> owner t j = false -> kernel t x j = x j.
Hypothesis owner_local :
  forall t x x', launched t -> (forall j, owner t j = true -> x j = x' j) ->
  forall j, owner t j = true -> kernel t x j = kernel t x' j.

(** When the threads of a schedule own disjoint cells, a cell holds after the
    launch what its owner alone computes from the initial buffer. *)
Lemma exec_owner (sched : list thread) (x : buffer F) (t : thread) (j : Z) :
  NoDup sched -> (forall t, In t sched -> launched t) ->
  (forall t1 t2 j, In t1 sched -> In t2 sched -> t1 <> t2 ->
                   owner t1 j = true -> owner t2 j = false) ->
  In t sched -> owner t j = true ->
  exec kernel sched x j = kernel t x j.
Proof.
  revert x. induction sched as [|t0 l IH]; intros x Hnd Hl Hdis Hin Ho; [destruct Hin|].
  inversion Hnd as [|? ? Hnotin Hnd']; subst. rewrite exec_cons.
  destruct Hin as [->|Hin].
  - apply exec_frame. intros t' x' Ht'. apply owner_frame; [apply Hl; now right|].
    apply (Hdis t t' j); [now left|now right| |assumption].
    intros ->. contradiction.
  - rewrite IH; auto.
    + apply owner_local; [apply Hl; now right| |assumption].
      intros j' Hj'. apply owner_frame; [apply Hl; now left|].
      apply (Hdis t t0 j'); [now right|now left| |assumption].
      intros ->. contradiction.
    + intros; apply Hl; now right.
    + intros t1 t2 j' H1 H2. apply Hdis; now right.
Qed.

Lemma exec_unowned (sched : list thread) (x : buffer F) (j : Z) :
  (forall t, In t sched -> launched t) ->
  (forall t, In t sched -> owner t j = false) ->
  exec kernel sched x j = x j.
Proof.
  intros Hl H. apply exec_frame. intros t x' Ht.
  apply owner_frame; [now apply Hl|now apply H].
Qed.
End Owners.

Lemma NoDup_grid_threads (g b : dim3) : NoDup (grid_threads g b).
Proof.
  unfold grid_threads.
  assert (Hflat : forall (A B : Type) (f : A -> list B) (l : list A),
             NoDup l -> (forall a, In a l -> NoDup (f a)) ->
             (forall a1 a2 y, In a1 l -> In a2 l -> In y (f a1) -> In y (f a2) -> a1 = a2) ->
             NoDup (flat_map f l)).
  { intros A B f l. induction l as [|a l IH]; intros Hnd Hf Hinj; [constructor|].
    inversion Hnd; subst. simpl.
    apply NoDup_app; [apply Hf; now left|apply IH; auto| ].
    - intros; apply Hf; now right.
    - intros a1 a2 y Ha1 Ha2. apply Hinj; now right.
    - intros y Hy Hy'. apply in_flat_map in Hy' as [a' [Ha' Hy']].
      assert (a = a') by (apply (Hinj a a' y); auto; [now left|now right]).
      subst. contradiction. }
  apply Hflat; [apply NoDup_range| |].
  - intros by_ _. apply Hflat; [apply NoDup_range| |].
    + intros bx _. apply Hflat; [apply NoDup_range| |].
      * intros ty _. apply Finite.Injective_map_NoDup; [|apply NoDup_range].
        intros a a' H. now inversion H.
      * intros ty ty' y _ _ H1 H2.
        apply in_map_iff in H1 as [? [<- _]]. apply in_map_iff in H2 as [? [E _]].
        now inversion E.
    + intros bx bx' y _ _ H1 H2.
      apply in_flat_map in H1 as [? [_ H1]]. apply in_flat_map in H2 as [? [_ H2]].
      apply in_map_iff in H1 as [? [<- _]]. apply in_map_iff in H2 as [? [E _]].
      now inversion E.
  - intros by_ by' y _ _ H1 H2.
    apply in_flat_map in H1 as [? [_ H1]]. apply in_flat_map in H2 as [? [_ H2]].
    apply in_flat_map in H1 as [? [_ H1]]. apply in_flat_map in H2 as [? [_ H2]].
    apply in_map_iff in H1 as [? [<- _]]. apply in_map_iff in H2 as [? [E _]].
    now inversion E.
Qed.

Lemma NoDup_schedule (g b : dim3) (sched : list thread) :
  schedule_of g b sched -> NoDup sched.
Proof.
  intros H. eapply Permutation_NoDup; [exact H|apply NoDup_grid_threads].
Qed.

(** In a launch on a one-dimensional grid, distinct threads have distinct
    global indices. *)
Lemma global_x_inj (g b : dim3) (t1 t2 : thread) :
  launch_fits g b = true -> dim_y g = 1 -> dim_y b = 1 ->
  In t1 (grid_threads g b) -> In t2 (grid_threads g b) ->
  global_x b t1 = global_x b t2 -> t1 = t2.
Proof.
  intros Hf Hgy Hby H1 H2 E.
  apply launch_fits_spec in Hf. apply In_grid_threads in H1, H2.
  destruct t1 as [[bx1 by1] [tx1 ty1]], t2 as [[bx2 by2] [tx2 ty2]].
  unfold global_x in E; simpl in *.
  assert (by1 = 0 /\ by2 = 0 /\ ty1 = 0 /\ ty2 = 0) as (-> & -> & -> & ->) by lia.
  assert (bx1 = bx2) by nia. subst.
  assert (tx1 = tx2) by lia. subst. reflexivity.
Qed.

(** ** The element-wise kernels *)

Lemma quot_rem_nonneg (a b : Z) :
  0 <= a -> 0 <= Z.rem a b <= a /\ - a <= Z.quot a b <= a /\
            (0 < b -> Z.quot a b = a / b /\ Z.rem a b = a mod b) /\
            (b <= 0 -> b <= Z.rem a b).
Proof.
  intros Ha.
  destruct (Z.lt_trichotomy b 0) as [Hb|[->|Hb]].
  - assert (E1 : Z.rem a b = a mod (- b)).
    { rewrite <- (Z.opp_involutive b) at 1. rewrite Z.rem_opp_r by lia.
      apply Z.rem_mod_nonneg; lia. }
    assert (E2 : Z.quot a b = - (a / (- b))).
    { rewrite <- (Z.opp_involutive b) at 1. rewrite Z.quot_opp_r by lia.
      f_equal. apply Z.quot_div_nonneg; lia. }
    pose proof (Z.mod_pos_bound a (- b)).
    pose proof (Z.div_mod a (- b)).
    assert (0 <= a / - b) by (apply Z.div_pos; lia).
    rewrite E1, E2. repeat split; try lia; nia.
  - rewrite Z.rem_0_r_ext, Z.quot_0_r_ext by reflexivity. lia.
  - rewrite Z.rem_mod_nonneg, Z.quot_div_nonneg by lia.
    pose proof (Z.mod_pos_bound a b Hb).
    pose proof (Z.div_mod a b).
    assert (0 <= a / b) by (apply Z.div_pos; lia).
    repeat split; try lia; nia.
Qed.

(** The guard of [bias_add_kernel] holds exactly on the flat indices of the
    batch. *)
Lemma bias_add_guard (idx batch_size size : Z) :
  0 <= idx <= INT_MAX ->
  (idiv idx size <? batch_size) && (imod idx size <? size) = true <->
  0 < size /\ idx < batch_size * size.
Proof.
  intros Hidx. unfold idiv, imod.
  destruct (quot_rem_nonneg idx size) as (Hr & Hq & Hpos & Hneg); [lia|].
  rewrite !wrap_small by (unfold INT_MAX in *; lia).
  rewrite andb_true_iff, !Z.ltb_lt.
  destruct (Z_lt_le_dec 0 size) as [Hs|Hs].
  - destruct (Hpos Hs) as [-> ->].
    pose proof (Z.mod_pos_bound idx size Hs).
    pose proof (Z.div_mod idx size).
    split; [intros [H1 _]; split; [assumption|nia]|].
    intros [_ H1]. split; [|lia].
    apply Z.div_lt_upper_bound; lia.
  - specialize (Hneg Hs). lia.
Qed.

Lemma bias_add_column (idx size : Z) :
  0 <= idx <= INT_MAX -> 0 < size -> imod idx size = idx mod size.
Proof.
  intros Hidx Hs. unfold imod.
  destruct (quot_rem_nonneg idx size) as (Hr & _ & Hpos & _); [lia|].
  rewrite wrap_small by (unfold INT_MAX in *; lia).
  now destruct (Hpos Hs).
Qed.

Section Elementwise.
Context {F : Type} {SF : Scalar F}.

Lemma gelu_kernel_thread (g b : dim3) (t : thread) (x : buffer F) (size j : Z) :
  launch_fits g b = true -> In t (grid_threads g b) ->
  gelu_kernel b t x size j
  = if owns_index b size t j then gelu (x j) else x j.
Proof.
  intros Hf Ht. unfold gelu_kernel, owns_index.
  rewrite (thread_index_x g _ _ Hf Ht).
  destruct (global_x b t <? size); [|reflexivity]. simpl.
  unfold upd. destruct (j =? global_x b t) eqn:E; [|reflexivity].
  apply Z.eqb_eq in E. subst. reflexivity.
Qed.

Lemma multiply_gradients_kernel_thread (g b : dim3) (t : thread)
    (grad1 grad2 : buffer F) (size j : Z) :
  launch_fits g b = true -> In t (grid_threads g b) ->
  multiply_gradients_kernel b t grad1 grad2 size j
  = if owns_index b size t j then fmul (grad1 j) (grad2 j) else grad1 j.
Proof.
  intros Hf Ht. unfold multiply_gradients_kernel, owns_index.
  rewrite (thread_index_x g _ _ Hf Ht).
  destruct (global_x b t <? size); [|reflexivity]. simpl.
  unfold upd. destruct (j =? global_x b t) eqn:E; [|reflexivity].
  apply Z.eqb_eq in E. subst. reflexivity.
Qed.

Lemma bias_add_kernel_thread (g b : dim3) (t : thread)
    (x bias : buffer F) (batch_size size j : Z) :
  launch_fits g b = true -> In t (grid_threads g b) ->
  bias_add_kernel b t x bias batch_size size j
  = if (0 <? size) && owns_index b (batch_size * size) t j
    then fadd (x j) (bias (j mod size)) else x j.
Proof.
  intros Hf Ht. unfold bias_add_kernel, owns_index.
  rewrite (thread_index_x g _ _ Hf Ht).
  destruct (global_in_grid g b t Hf Ht) as (Hx & Hx' & _).
  pose proof (bias_add_guard (global_x b t) batch_size size) as Hg.
  destruct ((idiv _ _ <? _) && (imod _ _ <? _)) eqn:E.
  - destruct Hg as [Hg _]; [lia|]. destruct (Hg eq_refl) as [Hs Hlt].
    rewrite bias_add_column by lia.
    apply Z.ltb_lt in Hs, Hlt. rewrite Hs, Hlt. simpl.
    unfold upd. destruct (j =? global_x b t) eqn:E'; [|reflexivity].
    apply Z.eqb_eq in E'. subst. reflexivity.
  - destruct (0 <? size) eqn:Hs; [|reflexivity].
    destruct (global_x b t <? batch_size * size) eqn:Hlt; [|reflexivity].
    apply Z.ltb_lt in Hs, Hlt.
    destruct Hg as [_ Hg]; [lia|]. discriminate Hg; auto.
Qed.

(** [dgelu_kernel] never stores to [x]; on [d_gelu_out] it is a scatter. *)
Lemma dgelu_kernel_thread (g b : dim3) (t : thread)
    (x d_gelu_out : buffer F) (size : Z) :
  launch_fits g b = true -> In t (grid_threads g b) ->
  dgelu_kernel b t (x, d_gelu_out) size
  = (x, scatter (fun t => global_x b t <? size) (global_x b)
                (fun t => dgelu (x (global_x b t))) t d_gelu_out).
Proof.
  intros Hf Ht. unfold dgelu_kernel, scatter.
  rewrite (thread_index_x g _ _ Hf Ht).
  destruct (global_x b t <? size); reflexivity.
Qed.

Lemma dgelu_kernel_exec (g b : dim3) (sched : list thread)
    (x d_gelu_out : buffer F) (size : Z) :
  launch_fits g b = true -> (forall t, In t sched -> In t (grid_threads g b)) ->
  exec (fun t s => dgelu_kernel b t s size) sched (x, d_gelu_out)
  = (x, exec (scatter (fun t => global_x b t <? size) (global_x b)
                      (fun t => dgelu (x (global_x b t)))) sched d_gelu_out).
Proof.
  intros Hf. revert d_gelu_out.
  induction sched as [|t l IH]; intros d_gelu_out Hin; [reflexivity|].
  rewrite !exec_cons, (dgelu_kernel_thread g) by (auto; apply Hin; now left).
  apply IH. intros; apply Hin; now right.
Qed.

End Elementwise.

(** ** Threads outside the output *)

Section Confined.
Context {F : Type} {SF : Scalar F}.
Variables (g b : dim3) (sched : list thread).
Hypothesis Hsched : schedule_of g b sched.
Hypothesis Hfits : launch_fits g b = true.

Lemma gemm_store_inside (rows cols : Z) (t : thread) :
  In t sched -> rows * cols <= INT_MAX ->
  (row_of b t <? rows) && (col_of b t <? cols) = true ->
  0 <= iadd (imul (row_of b t) cols) (col_of b t) < rows * cols.
Proof.
  intros Ht Hmk Hg. apply (schedule_of_in g b sched) in Ht; [|assumption].
  unfold row_of, col_of in *.
  rewrite (thread_index_y g _ _ Hfits Ht), (thread_index_x g _ _ Hfits Ht) in *.
  destruct (global_in_grid g _ _ Hfits Ht) as (Hx & _ & Hy & _).
  apply andb_true_iff in Hg as [Hr Hc]. apply Z.ltb_lt in Hr, Hc.
  unfold INT_MAX in *.
  rewrite iadd_imul_small by (unfold INT_MAX; nia). nia.
Qed.

Lemma matmul_a_b_confined (A B : buffer F) (m n k : Z) :
  m * k <= INT_MAX ->
  confined (fun t C => matmul_a_b_kernel b t A B C m n k) sched
           (fun t => (row_of b t <? m) && (col_of b t <? k))
           (fun j => 0 <= j < m * k).
Proof.
  intros Hmk. split.
  - intros t C _ Hg. unfold matmul_a_b_kernel.
    fold (row_of b t) (col_of b t). now rewrite Hg.
  - intros C j Hj. apply exec_frame. intros t C' Ht.
    unfold matmul_a_b_kernel. fold (row_of b t) (col_of b t).
    destruct (_ && _) eqn:Hg; [|reflexivity].
    apply upd_other. intros ->. apply Hj.
    now apply gemm_store_inside.
Qed.

Lemma matmul_a_bt_confined (A B : buffer F) (m n k : Z) :
  m * k <= INT_MAX ->
  confined (fun t C => matmul_a_bt_kernel b t A B C m n k) sched
           (fun t => (row_of b t <? m) && (col_of b t <? k))
           (fun j => 0 <= j < m * k).
Proof.
  intros Hmk. split.
  - intros t C _ Hg. unfold matmul_a_bt_kernel.
    fold (row_of b t) (col_of b t). now rewrite Hg.
  - intros C j Hj. apply exec_frame. intros t C' Ht.
    unfold matmul_a_bt_kernel. fold (row_of b t) (col_of b t).
    destruct (_ && _) eqn:Hg; [|reflexivity].
    apply upd_other. intros ->. apply Hj.
    now apply gemm_store_inside.
Qed.

Lemma matmul_at_b_confined (A B : buffer F) (m n k : Z) :
  n * k <= INT_MAX ->
  confined (fun t C => matmul_at_b_kernel b t A B C m n k) sched
           (fun t => (row_of b t <? n) && (col_of b t <? k))
           (fun j => 0 <= j < n * k).
Proof.
  intros Hnk. split.
  - intros t C _ Hg. unfold matmul_at_b_kernel.
    fold (row_of b t) (col_of b t). now rewrite Hg.
  - intros C j Hj. apply exec_frame. intros t C' Ht.
    unfold matmul_at_b_kernel. fold (row_of b t) (col_of b t).
    destruct (_ && _) eqn:Hg; [|reflexivity].
    apply upd_other. intros ->. apply Hj.
    now apply gemm_store_inside.
Qed.

Lemma owns_index_inside (size : Z) (t : thread) (j : Z) :
  In t sched -> owns_index b size t j = true -> 0 <= j < size.
Proof.
  intros Ht Ho. apply (schedule_of_in g b sched) in Ht; [|assumption].
  destruct (global_in_grid g _ _ Hfits Ht) as (Hx & _).
  unfold owns_index in Ho. apply andb_true_iff in Ho as [H1 H2].
  apply Z.ltb_lt in H1. apply Z.eqb_eq in H2. lia.
Qed.

Lemma col_of_global (t : thread) : In t sched -> col_of b t = global_x b t.
Proof.
  intros Ht. apply (schedule_of_in g b sched) in Ht; [|assumption].
  apply (thread_index_x g); assumption.
Qed.

Lemma bias_add_confined (bias : buffer F) (batch_size size : Z) :
  confined (fun t x => bias_add_kernel b t x bias batch_size size) sched
           (fun t => col_of b t <? batch_size * size)
           (fun j => 0 <= j < batch_size * size).
Proof.
  split.
  - intros t x Ht Hg. rewrite (col_of_global t Ht) in Hg.
    apply (schedule_of_in g b sched) in Ht; [|assumption].
    unfold bias_add_kernel. rewrite (thread_index_x g _ _ Hfits Ht).
    destruct (global_in_grid g _ _ Hfits Ht) as (Hx & Hx' & _).
    destruct (_ && _) eqn:E; [|reflexivity].
    apply bias_add_guard in E; [|lia]. apply Z.ltb_ge in Hg. lia.
  - intros x j Hj. apply exec_frame. intros t x' Ht.
    rewrite (bias_add_kernel_thread g); auto;
      [|now apply (schedule_of_in g b sched)].
    destruct (0 <? size); [|reflexivity]. simpl.
    destruct (owns_index _ _ _ _) eqn:Ho; [|reflexivity].
    exfalso. apply Hj. now apply (owns_index_inside _ t).
Qed.

Lemma gelu_confined (size : Z) :
  confined (fun t x => gelu_kernel b t x size) sched
           (fun t => col_of b t <? size) (fun j => 0 <= j < size).
Proof.
  split.
  - intros t x _ Hg. unfold gelu_kernel. fold (col_of b t). now rewrite Hg.
  - intros x j Hj. apply exec_frame. intros t x' Ht.
    rewrite (gelu_kernel_thread g); auto;
      [|now apply (schedule_of_in g b sched)].
    destruct (owns_index _ _ _ _) eqn:Ho; [|reflexivity].
    exfalso. apply Hj. now apply (owns_index_inside _ t).
Qed.

Lemma multiply_gradients_confined (grad2 : buffer F) (size : Z) :
  confined (fun t grad1 => multiply_gradients_kernel b t grad1 grad2 size) sched
           (fun t => col_of b t <? size) (fun j => 0 <= j < size).
Proof.
  split.
  - intros t x _ Hg. unfold multiply_gradients_kernel.
    fold (col_of b t). now rewrite Hg.
  - intros x j Hj. apply exec_frame. intros t x' Ht.
    rewrite (multiply_gradients_kernel_thread g); auto;
      [|now apply (schedule_of_in g b sched)].
    destruct (owns_index _ _ _ _) eqn:Ho; [|reflexivity].
    exfalso. apply Hj. now apply (owns_index_inside _ t).
Qed.

(** [dgelu_kernel]: the same for its output buffer, and its input buffer is
    never written. *)
Lemma dgelu_confined (x d_gelu_out : buffer F) (size : Z) :
  (forall t s, In t sched -> (col_of b t <? size) = false ->
               dgelu_kernel b t s size = s) /\
  fst (exec (fun t s => dgelu_kernel b t s size) sched (x, d_gelu_out)) = x /\
  (forall j, ~ 0 <= j < size ->
     snd (exec (fun t s => dgelu_kernel b t s size) sched (x, d_gelu_out)) j
     = d_gelu_out j).
Proof.
  assert (Hin : forall t, In t sched -> In t (grid_threads g b))
    by (intros t; now apply (schedule_of_in g b sched)).
  split; [|rewrite (dgelu_kernel_exec g) by auto; split; [reflexivity|]].
  - intros t [x0 o0] _ Hg. unfold dgelu_kernel. fold (col_of b t).
    now rewrite Hg.
  - intros j Hj. simpl. apply exec_scatter_frame.
    intros t Ht Hg E. apply Hj.
    destruct (global_in_grid g _ _ Hfits (Hin t Ht)) as (Hx & _).
    apply Z.ltb_lt in Hg. lia.
Qed.

End Confined.

(** C10: in a launch of a GEMM kernel, of the bias-add kernel or of an
    element-wise kernel, a thread whose index is outside the declared output
    (row >= m or col >= k; flat index >= batch_size * size, or >= size) stores
    nothing, and every buffer element outside the declared output is after
    the launch what it was before. *)
Theorem threads_outside_output_write_nothing {F : Type} {SF : Scalar F}
    (g b : dim3) (sched : list thread) (A B bias grad2 x0 out0 : buffer F)
    (m n k batch_size size : Z) :
  schedule_of g b sched -> launch_fits g b = true ->
  m * k <= INT_MAX -> n * k <= INT_MAX ->
  confined (fun t C => matmul_a_b_kernel b t A B C m n k) sched
           (fun t => (row_of b t <? m) && (col_of b t <? k))
           (fun j => 0 <= j < m * k) /\
  confined (fun t C => matmul_a_bt_kernel b t A B C m n k) sched
           (fun t => (row_of b t <? m) && (col_of b t <? k))
           (fun j => 0 <= j < m * k) /\
  confined (fun t C => matmul_at_b_kernel b t A B C m n k) sched
           (fun t => (row_of b t <? n) && (col_of b t <? k))
           (fun j => 0 <= j < n * k) /\
  confined (fun t x => bias_add_kernel b t x bias batch_size size) sched
           (fun t => col_of b t <? batch_size * size)
           (fun j => 0 <= j < batch_size * size) /\
  confined (fun t x => gelu_kernel b t x size) sched
           (fun t => col_of b t <? size) (fun j => 0 <= j < size) /\
  confined (fun t grad1 => multiply_gradients_kernel b t grad1 grad2 size) sched
           (fun t => col_of b t <? size) (fun j => 0 <= j < size) /\
  ((forall t s, In t sched -> (col_of b t <? size) = false ->
                dgelu_kernel b t s size = s) /\
   fst (exec (fun t s => dgelu_kernel b t s size) sched (x0, out0)) = x0 /\
   (forall j, ~ 0 <= j < size ->
      snd (exec (fun t s => dgelu_kernel b t s size) sched (x0, out0)) j = out0 j)).
Proof.
  intros Hs Hf Hmk Hnk.
  repeat split.
  - apply (matmul_a_b_confined g b sched Hs Hf A B m n k Hmk).
  - apply (matmul_a_b_confined g b sched Hs Hf A B m n k Hmk).
  - apply (matmul_a_bt_confined g b sched Hs Hf A B m n k Hmk).
  - apply (matmul_a_bt_confined g b sched Hs Hf A B m n k Hmk).
  - apply (matmul_at_b_confined g b sched Hs Hf A B m n k Hnk).
  - apply (matmul_at_b_confined g b sched Hs Hf A B m n k Hnk).
  - apply (bias_add_confined g b sched Hs Hf).
  - apply (bias_add_confined g b sched Hs Hf).
  - apply (gelu_confined g b sched Hs Hf).
  - apply (gelu_confined g b sched Hs Hf).
  - apply (multiply_gradients_confined g b sched Hs Hf).
  - apply (multiply_gradients_confined g b sched Hs Hf).
  - apply (dgelu_confined g b sched Hs Hf x0 out0 size).
  - apply (dgelu_confined g b sched Hs Hf x0 out0 size).
  - apply (dgelu_confined g b sched Hs Hf x0 out0 size).
Qed.

(** ** Softmax *)

Section InPlaceLoops.
Context {F A : Type}.

(** A loop that overwrites the cells [base + i], each from its own old
    value, and folds the new values into an accumulator. *)
Lemma map_accumulate_loop (f : F -> F) (g : A -> F -> A) (base : Z)
    (l : list Z) (x : buffer F) (a : A) :
  NoDup l ->
  let r := fold_left (fun '(x, a) i =>
                        let x := upd x (base + i) (f (x (base + i))) in
                        (x, g a (x (base + i))))
                     l (x, a) in
  (forall i, In i l -> fst r (base + i) = f (x (base + i))) /\
  (forall j, (forall i, In i l -> j <> base + i) -> fst r j = x j) /\
  snd r = fold_left (fun a i => g a (f (x (base + i)))) l a.
Proof.
  revert x a. induction l as [|i0 l IH]; intros x a Hnd.
  - simpl. repeat split; auto. intros i [].
  - inversion Hnd as [|? ? Hnotin Hnd']; subst.
    cbn [fold_left]. rewrite upd_same.
    specialize (IH (upd x (base + i0) (f (x (base + i0))))
                   (g a (f (x (base + i0)))) Hnd').
    cbv zeta in IH. destruct IH as (IH1 & IH2 & IH3).
    cbv zeta. repeat split.
    + intros i [<-|Hi].
      * rewrite IH2; [apply upd_same|].
        intros i' Hi' E. apply Hnotin.
        assert (i0 = i') by lia. now subst.
      * rewrite IH1 by assumption. rewrite upd_other; [reflexivity|].
        intros E. apply Hnotin. assert (i = i0) by lia. now subst.
    + intros j Hj. rewrite IH2 by (intros; apply Hj; now right).
      apply upd_other. apply Hj. now left.
    + rewrite IH3. apply fold_left_ext_in. intros a' i Hi.
      rewrite upd_other; [reflexivity|].
      intros E. apply Hnotin. assert (i = i0) by lia. now subst.
Qed.

Lemma map_loop (f : F -> F) (base : Z) (l : list Z) (x : buffer F) :
  NoDup l ->
  let r := fold_left (fun x i => upd x (base + i) (f (x (base + i)))) l x in
  (forall i, In i l -> r (base + i) = f (x (base + i))) /\
  (forall j, (forall i, In i l -> j <> base + i) -> r j = x j).
Proof.
  revert x. induction l as [|i0 l IH]; intros x Hnd.
  - simpl. split; auto. intros i [].
  - inversion Hnd as [|? ? Hnotin Hnd']; subst.
    cbn [fold_left].
    specialize (IH (upd x (base + i0) (f (x (base + i0)))) Hnd').
    cbv zeta in IH. destruct IH as (IH1 & IH2).
    cbv zeta. split.
    + intros i [<-|Hi].
      * rewrite IH2; [apply upd_same|].
        intros i' Hi' E. apply Hnotin.
        assert (i0 = i') by lia. now subst.
      * rewrite IH1 by assumption. rewrite upd_other; [reflexivity|].
        intros E. apply Hnotin. assert (i = i0) by lia. now subst.
    + intros j Hj. rewrite IH2 by (intros; apply Hj; now right).
      apply upd_other. apply Hj. now left.
Qed.
End InPlaceLoops.

Section Softmax.
Context {F : Type} {SF : Scalar F}.

(** The thread of block [bx] rewrites row [bx] and nothing else. *)
Lemma softmax_kernel_thread (bd : dim3) (t : thread) (x : buffer F)
    (batch_size size : Z) :
  let bx := dim_x (blockIdx t) in
  0 <= bx < batch_size -> batch_size <= INT_MAX + 1 ->
  0 <= size -> batch_size * size <= INT_MAX ->
  (forall i, 0 <= i < size ->
     softmax_kernel bd t x batch_size size (bx * size + i)
     = softmax_out x (bx * size) size i) /\
  (forall j, in_row (bx * size) size j = false ->
     softmax_kernel bd t x batch_size size j = x j).
Proof.
  intros bx Hb Hbatch Hsize Hfit. unfold softmax_kernel. fold bx.
  assert (Hidx : thread_index bx 1 0 = bx).
  { rewrite thread_index_small by (unfold INT_MAX in *; lia). lia. }
  rewrite Hidx.
  assert (Hlt : (bx <? batch_size) = true) by (apply Z.ltb_lt; lia).
  rewrite Hlt.
  assert (Hbase : imul bx size = bx * size).
  { unfold imul. apply wrap_small. unfold INT_MAX in *. nia. }
  rewrite Hbase.
  assert (Hcell : forall i, 0 <= i < size -> iadd (bx * size) i = bx * size + i).
  { intros i Hi. unfold iadd. apply wrap_small. unfold INT_MAX in *. nia. }
  rewrite (fold_left_ext_in _ (fun max_val i => fmaxf max_val (x (bx * size + i))))
    by (intros a i Hi; apply In_range in Hi; rewrite Hcell by lia; reflexivity).
  fold (row_max x (bx * size) size).
  set (M := row_max x (bx * size) size).
  rewrite (fold_left_ext_in _
             (fun '(x, a) i =>
                let x := upd x (bx * size + i) ((fun v => expf (fsub v M)) (x (bx * size + i))) in
                (x, fadd a (x (bx * size + i)))) (range 0 size))
    by (intros [x' a] i Hi; apply In_range in Hi; rewrite !Hcell by lia; reflexivity).
  pose proof (map_accumulate_loop (fun v => expf (fsub v M)) fadd (bx * size)
                (range 0 size) x (lit 0) (NoDup_range 0 size)) as H2.
  cbv zeta in H2. destruct (fold_left _ (range 0 size) (x, lit 0)) as [x1 sum] eqn:E2.
  simpl in H2. destruct H2 as (H2a & H2b & H2c).
  rewrite (accumulate_loop (fun i => expf (fsub (x (bx * size + i)) M))) in H2c.
  fold (softmax_exp x (bx * size) size) in H2c.
  fold (softmax_sum x (bx * size) size) in H2c. subst sum.
  set (S := softmax_sum x (bx * size) size).
  rewrite (fold_left_ext_in _
             (fun x i => upd x (bx * size + i)
                           ((fun v => fmaxf (fdiv v S) (lit 1e-7)) (x (bx * size + i))))
             (range 0 size))
    by (intros x' i Hi; apply In_range in Hi; rewrite !Hcell by lia; reflexivity).
  pose proof (map_loop (fun v => fmaxf (fdiv v S) (lit 1e-7)) (bx * size)
                (range 0 size) x1 (NoDup_range 0 size)) as H3.
  cbv zeta in H3. destruct H3 as (H3a & H3b).
  split.
  - intros i Hi. rewrite H3a by (apply In_range; lia).
    rewrite H2a by (apply In_range; lia). reflexivity.
  - intros j Hj.
    assert (Hout : forall i, In i (range 0 size) -> j <> bx * size + i).
    { intros i Hi E. apply In_range in Hi. unfold in_row in Hj.
      apply andb_false_iff in Hj as [Hj|Hj];
        [apply Z.leb_gt in Hj|apply Z.ltb_ge in Hj]; lia. }
    rewrite H3b by assumption. now apply H2b.
Qed.

Lemma row_max_ext (x y : buffer F) (base size : Z) :
  (forall i, 0 <= i < size -> x (base + i) = y (base + i)) ->
  0 < size -> row_max x base size = row_max y base size.
Proof.
  intros H Hs. unfold row_max.
  replace (x base) with (y base)
    by (rewrite <- (Z.add_0_r base); symmetry; apply H; lia).
  apply fold_left_ext_in. intros a i Hi. apply In_range in Hi.
  rewrite H by lia. reflexivity.
Qed.

Lemma softmax_out_ext (x y : buffer F) (base size i : Z) :
  (forall i, 0 <= i < size -> x (base + i) = y (base + i)) ->
  0 <= i < size -> softmax_out x base size i = softmax_out y base size i.
Proof.
  intros H Hi. unfold softmax_out, softmax_sum.
  assert (E : forall i, 0 <= i < size ->
              softmax_exp x base size i = softmax_exp y base size i).
  { intros i' Hi'. unfold softmax_exp.
    rewrite (row_max_ext x y) by (auto; lia). rewrite H by lia. reflexivity. }
  rewrite E by assumption.
  rewrite (sum_upto_ext _ _ (softmax_exp y base size)); [reflexivity|].
  intros i' Hi'. apply E. lia.
Qed.

(** The launch [softmax_kernel<<<batch_size, 1>>>]: one block per row, one
    thread per block. *)
Lemma softmax_launch (g : dim3) (sched : list thread) (x : buffer F)
    (batch_size size : Z) :
  schedule_of g (mkdim3 1 1) sched ->
  dim_y g = 1 -> batch_size <= dim_x g <= INT_MAX + 1 ->
  0 <= size -> batch_size * size <= INT_MAX ->
  forall r i, 0 <= r < batch_size -> 0 <= i < size ->
    exec (fun t x => softmax_kernel (mkdim3 1 1) t x batch_size size) sched x
         (r * size + i)
    = softmax_out x (r * size) size i.
Proof.
  intros Hs Hgy Hgx Hsize Hfit r i Hr Hi.
  set (owner := fun (t : thread) (j : Z) =>
                  (dim_x (blockIdx t) <? batch_size)
                  && in_row (dim_x (blockIdx t) * size) size j).
  set (launched := fun t : thread =>
                     0 <= dim_x (blockIdx t) < dim_x g /\ dim_y (blockIdx t) = 0 /\
                     dim_x (threadIdx t) = 0 /\ dim_y (threadIdx t) = 0).
  assert (Hin : forall t, In t sched -> launched t).
  { intros t Ht. apply (schedule_of_in _ _ _ _ Hs) in Ht.
    apply In_grid_threads in Ht. unfold launched. simpl in Ht. lia. }
  assert (Hk : forall t x' j, launched t ->
             softmax_kernel (mkdim3 1 1) t x' batch_size size j
             = if owner t j
               then softmax_out x' (dim_x (blockIdx t) * size) size
                                (j - dim_x (blockIdx t) * size)
               else x' j).
  { intros t x' j (Hbx & _).
    unfold owner. destruct (dim_x (blockIdx t) <? batch_size) eqn:Hlt.
    - apply Z.ltb_lt in Hlt.
      destruct (softmax_kernel_thread (mkdim3 1 1) t x' batch_size size)
        as [H1 H2]; [lia|lia|lia|lia|].
      simpl. destruct (in_row _ _ _) eqn:Hrow.
      + unfold in_row in Hrow. apply andb_true_iff in Hrow as [Ha Hb].
        apply Z.leb_le in Ha. apply Z.ltb_lt in Hb.
        rewrite <- H1 by lia. f_equal. lia.
      + now apply H2.
    - simpl. unfold softmax_kernel.
      rewrite thread_index_small by (unfold INT_MAX in *; lia).
      rewrite Z.mul_1_r, Z.add_0_r, Hlt. reflexivity. }
  set (t := mkthread (mkdim3 r 0) (mkdim3 0 0)).
  assert (Ht : In t sched).
  { apply (schedule_of_in _ _ _ _ Hs). apply In_grid_threads. simpl. lia. }
  assert (Ho : owner t (r * size + i) = true).
  { unfold owner, in_row. simpl.
    apply andb_true_iff; split; [apply Z.ltb_lt; lia|].
    apply andb_true_iff; split; [apply Z.leb_le|apply Z.ltb_lt]; lia. }
  rewrite (exec_owner _ owner launched) with (t := t); auto.
  - rewrite Hk by (apply Hin; assumption). rewrite Ho. simpl. f_equal. lia.
  - intros t' x' j Hl Hj. rewrite Hk by assumption. now rewrite Hj.
  - intros t' x' x'' Hl Hx j Hj. rewrite !Hk by assumption. rewrite Hj.
    unfold owner in Hj. apply andb_true_iff in Hj as [Hlt Hrow].
    unfold in_row in Hrow. apply andb_true_iff in Hrow as [Ha Hb].
    apply Z.leb_le in Ha. apply Z.ltb_lt in Hb.
    apply softmax_out_ext; [|lia].
    intros i' Hi'. apply Hx. unfold owner, in_row. rewrite Hlt. simpl.
    apply andb_true_iff; split; [apply Z.leb_le|apply Z.ltb_lt]; lia.
  - apply (NoDup_schedule g (mkdim3 1 1)); assumption.
  - intros t1 t2 j H1 H2 Hne Ho1.
    destruct (Hin t1 H1) as (Hb1 & Hy1 & Hx1 & Hz1).
    destruct (Hin t2 H2) as (Hb2 & Hy2 & Hx2 & Hz2).
    unfold owner in *. apply andb_true_iff in Ho1 as [_ Hrow].
    unfold in_row in *. apply andb_true_iff in Hrow as [Ha Hb].
    apply Z.leb_le in Ha. apply Z.ltb_lt in Hb.
    destruct (dim_x (blockIdx t2) <? batch_size); [|reflexivity]. simpl.
    assert (dim_x (blockIdx t1) <> dim_x (blockIdx t2)).
    { intros E. apply Hne.
      destruct t1 as [[? ?] [? ?]], t2 as [[? ?] [? ?]]; simpl in *. congruence. }
    apply andb_false_iff.
    destruct (Z_lt_le_dec (dim_x (blockIdx t1)) (dim_x (blockIdx t2)));
      [left; apply Z.leb_gt; nia|right; apply Z.ltb_ge; nia].
Qed.

End Softmax.

(** ** Exact arithmetic *)

Section ExactSums.
Local Open Scope R_scope.
















End ExactSums.



Lemma transposed_gemm_is_gemm_of_transpose_witness :
  (forall j,
     exec (fun t C => matmul_a_bt_kernel (mkdim3 2 2) t
                        (fun i => IZR i) (fun i => IZR (2 * i)) C 2 3 2)
          (grid_threads (mkdim3 1 1) (mkdim3 2 2)) (fun _ => 7%R) j
     = exec (fun t C => matmul_a_b_kernel (mkdim3 2 2) t (fun i => IZR i)
                          (transpose 2 3 (fun i => IZR (2 * i))) C 2 3 2)
            (grid_threads (mkdim3 1 1) (mkdim3 2 2)) (fun _ => 7%R) j) /\
  (forall j,
     exec (fun t C => matmul_at_b_kernel (mkdim3 2 2) t
                        (fun i => IZR i) (fun i => IZR (2 * i)) C 2 3 2)
          (grid_threads (mkdim3 1 1) (mkdim3 2 2)) (fun _ => 7%R) j
     = exec (fun t C => matmul_a_b_kernel (mkdim3 2 2) t
                          (transpose 2 3 (fun i => IZR i)) (fun i => IZR (2 * i)) C 3 2 2)
            (grid_threads (mkdim3 1 1) (mkdim3 2 2)) (fun _ => 7%R) j).
Proof.
  apply (transposed_gemm_is_gemm_of_transpose
           (fun i => IZR i) (fun i => IZR (2 * i)) (fun _ => 7%R) 2 3 2
           (mkdim3 1 1) (mkdim3 2 2));
    try apply Permutation_refl; try reflexivity;
    try (unfold INT_MAX; simpl; lia).
Defined.

Lemma threads_outside_output_write_nothing_witness :
  confined (fun t x => gelu_kernel (mkdim3 4 1) t x 6)
           (grid_threads (mkdim3 2 1) (mkdim3 4 1))
           (fun t => col_of (mkdim3 4 1) t <? 6) (fun j => 0 <= j < 6).
Proof.
  apply (threads_outside_output_write_nothing
           (mkdim3 2 1) (mkdim3 4 1) (grid_threads (mkdim3 2 1) (mkdim3 4 1))
           (fun i => IZR i) (fun i => IZR i) (fun i => IZR i) (fun i => IZR i)
           (fun i => IZR i) (fun i => IZR i) 2 3 2 2 6);
    try apply Permutation_refl; try reflexivity;
    try (unfold INT_MAX; simpl; lia).
Defined.

(** ** Binary32 arithmetic *)

Lemma exec_invariant {St : Type} (P : St -> Prop) (kernel : thread -> St -> St)
    (sched : list thread) (s : St) :
  (forall t s, In t sched -> P s -> P (kernel t s)) ->
  P s -> P (exec kernel sched s).
Proof.
  revert s. induction sched as [|t l IH]; intros s H Hs; [exact Hs|].
  rewrite exec_cons. apply IH.
  - intros; apply H; [now right|assumption].
  - apply H; [now left|assumption].
Qed.

Section Binary32Facts.
Import Binary32.
Variables libm_expf libm_logf libm_tanhf libm_coshf : float -> float.

#[local] Instance b32 : Scalar float :=
  binary32 libm_expf libm_logf libm_tanhf libm_coshf.

Lemma lit_floor32 : lit 1e-7 = floor32.
Proof. reflexivity. Qed.

Lemma lit_zero32 : lit 0 = pos_zero.
Proof. reflexivity. Qed.







(** Zeros in sums and products. *)
Lemma mul_zero_finite (a w : float) :
  is_zero a = true -> is_finite w = true -> is_zero (fmul a w) = true.
Proof.
  destruct a as [sa|sa| |sa ma ea]; try discriminate.
  destruct w as [sw|sw| |sw mw ew]; try discriminate; reflexivity.
Qed.

Lemma add_pos_zero (z : float) :
  is_zero z = true -> fadd pos_zero z = pos_zero.
Proof. destruct z as [[|]|s| |s m e]; try discriminate; reflexivity. Qed.

Lemma matrix_product_zero (A B : buffer float) (n k r c : Z) :
  (forall i, 0 <= i < n -> is_zero (A (r * n + i)) = true) ->
  (forall i, 0 <= i < n -> is_finite (B (i * k + c)) = true) ->
  matrix_product A B n k r c = pos_zero.
Proof.
  intros HA HB. unfold matrix_product.
  assert (H : forall p, (p <= Z.to_nat n)%nat ->
              sum_upto p (fun i => fmul (A (r * n + i)) (B (i * k + c))) = pos_zero).
  { induction p as [|p IH]; intros Hp; [reflexivity|].
    cbn [sum_upto]. rewrite IH by lia.
    apply add_pos_zero. apply mul_zero_finite; [apply HA|apply HB]; lia. }
  apply H. lia.
Qed.

Lemma gelu_zero : libm_tanhf pos_zero = pos_zero -> gelu pos_zero = pos_zero.
Proof.
  intros H. unfold gelu, gelu_cdf.
  change (fmul (lit 0.7978845608)
               (fadd pos_zero (fmul (fmul (fmul (lit 0.044715) pos_zero) pos_zero) pos_zero)))
    with pos_zero.
  change (tanhf pos_zero) with (libm_tanhf pos_zero). rewrite H. reflexivity.
Qed.

(** A row of ten zeros: every exponential is [expf(0)], the sum is 10 and
    every quotient is [1.0f / 10.0f]. *)
Lemma softmax_out_zero_row (x : buffer float) (base i : Z) :
  libm_expf pos_zero = one32 ->
  (forall i, 0 <= i < OUTPUT_SIZE -> x (base + i) = pos_zero) ->
  0 <= i < OUTPUT_SIZE ->
  softmax_out x base OUTPUT_SIZE i = tenth32.
Proof.
  intros Hexp Hrow Hi.
  rewrite (softmax_out_ext x (fun _ => pos_zero)) by assumption.
  unfold softmax_out, softmax_sum, softmax_exp.
  change (row_max (fun _ => pos_zero) base OUTPUT_SIZE) with pos_zero.
  change (fsub pos_zero pos_zero) with pos_zero.
  change (expf pos_zero) with (libm_expf pos_zero). rewrite Hexp.
  reflexivity.
Qed.

(** ** The forward pass on a batch of zeros *)

Section ForwardZero.
Variable scheduler : dim3 -> dim3 -> list thread.
Hypothesis scheduler_fair : forall g b, schedule_of g b (scheduler g b).

Variables (nn : NeuralNetwork (F := float)) (d_input h0 o0 : buffer float).

Let h1 : buffer float :=
  exec (fun t C => matmul_a_b_kernel (mkdim3 32 32) t d_input (weights1 nn) C
                                     32 INPUT_SIZE HIDDEN_SIZE)
       (scheduler (mkdim3 128 1) (mkdim3 32 32)) h0.
Let h2 : buffer float :=
  exec (fun t x => bias_add_kernel (mkdim3 256 1) t x (bias1 nn) 32 HIDDEN_SIZE)
       (scheduler (mkdim3 512 1) (mkdim3 256 1)) h1.
Let h3 : buffer float :=
  exec (fun t x => gelu_kernel (mkdim3 256 1) t x 131072)
       (scheduler (mkdim3 512 1) (mkdim3 256 1)) h2.
Let o1 : buffer float :=
  exec (fun t C => matmul_a_b_kernel (mkdim3 32 32) t h3 (weights2 nn) C
                                     32 HIDDEN_SIZE OUTPUT_SIZE)
       (scheduler (mkdim3 1 1) (mkdim3 32 32)) o0.
Let o2 : buffer float :=
  exec (fun t x => bias_add_kernel (mkdim3 256 1) t x (bias2 nn) 32 OUTPUT_SIZE)
       (scheduler (mkdim3 2 1) (mkdim3 256 1)) o1.
Let o3 : buffer float :=
  exec (fun t x => softmax_kernel (mkdim3 1 1) t x 32 OUTPUT_SIZE)
       (scheduler (mkdim3 32 1) (mkdim3 1 1)) o2.

(** The six launches of [forward] on a batch of 32 are accepted, and these
    are the buffers they leave. *)
Lemma forward_upto_32 :
  forward_upto scheduler 2 nn d_input h0 o0 32 = Some (mkactivations h2 o0) /\
  forward_upto scheduler 3 nn d_input h0 o0 32 = Some (mkactivations h3 o0) /\
  forward_upto scheduler 5 nn d_input h0 o0 32 = Some (mkactivations h3 o2) /\
  forward scheduler nn d_input h0 o0 32 = Some (mkactivations h3 o3).
Proof. repeat split; reflexivity. Qed.

(** A NaN among the products of the first row and the first column reaches
    the hidden pre-activation. *)
Lemma hidden_pre_nan :
  matrix_product d_input (weights1 nn) INPUT_SIZE HIDDEN_SIZE 0 0 = S754_nan ->
  exists pre : activations,
    forward_upto scheduler 2 nn d_input h0 o0 32 = Some pre /\
    d_hidden pre 0 = S754_nan.
Proof.
  intros Hnan. exists (mkactivations h2 o0). split; [apply forward_upto_32|].
  cbn [d_hidden]. unfold h2.
  apply (exec_invariant (fun x : buffer float => x 0 = S754_nan)).
  - intros t x Ht Hx.
    rewrite (bias_add_kernel_thread (mkdim3 512 1)) by
      (try reflexivity;
       apply (schedule_of_in _ _ (scheduler (mkdim3 512 1) (mkdim3 256 1))); auto).
    destruct (_ && _); [|exact Hx]. rewrite Hx. reflexivity.
  - unfold h1. change 0 with (0 * HIDDEN_SIZE + 0) at 1.
    rewrite (matmul_a_b_exec _ _ _ 32 INPUT_SIZE HIDDEN_SIZE (mkdim3 128 1) (mkdim3 32 32));
      auto; try reflexivity; try (unfold INPUT_SIZE, HIDDEN_SIZE, INT_MAX; simpl; lia).
Qed.

Hypothesis expf_0 : libm_expf pos_zero = one32.
Hypothesis tanhf_0 : libm_tanhf pos_zero = pos_zero.
Hypothesis input_zero :
  forall j, 0 <= j < 32 * INPUT_SIZE -> is_zero (d_input j) = true.
Hypothesis bias1_zero :
  forall j, 0 <= j < HIDDEN_SIZE -> is_zero (bias1 nn j) = true.
Hypothesis bias2_zero :
  forall j, 0 <= j < OUTPUT_SIZE -> is_zero (bias2 nn j) = true.
Hypothesis weights1_finite :
  forall j, 0 <= j < INPUT_SIZE * HIDDEN_SIZE -> is_finite (weights1 nn j) = true.
Hypothesis weights2_finite :
  forall j, 0 <= j < HIDDEN_SIZE * OUTPUT_SIZE -> is_finite (weights2 nn j) = true.

Lemma split_index (j cols rows : Z) :
  0 < cols -> 0 <= j < rows * cols ->
  j = (j / cols) * cols + j mod cols /\ 0 <= j / cols < rows /\ 0 <= j mod cols < cols.
Proof.
  intros Hc Hj. pose proof (Z.div_mod j cols). pose proof (Z.mod_pos_bound j cols Hc).
  assert (0 <= j / cols) by (apply Z.div_pos; lia).
  assert (j / cols < rows) by (apply Z.div_lt_upper_bound; lia).
  lia.
Qed.

Lemma bias_add_keeps_zeros (g b : dim3) (bias x : buffer float) (rows cols : Z) :
  launch_fits g b = true ->
  (forall j, 0 <= j < cols -> is_zero (bias j) = true) ->
  zeros x (rows * cols) ->
  zeros (exec (fun t x => bias_add_kernel b t x bias rows cols) (scheduler g b) x)
        (rows * cols).
Proof.
  intros Hf Hb Hx.
  apply (exec_invariant (fun x => zeros x (rows * cols))); [|exact Hx].
  intros t x' Ht Hx' j Hj.
  rewrite (bias_add_kernel_thread g) by
    (auto; apply (schedule_of_in g b (scheduler g b)); auto).
  destruct (0 <? cols) eqn:Hc; [|now apply Hx']. simpl.
  destruct (owns_index _ _ _ _); [|now apply Hx'].
  rewrite Hx' by assumption. apply add_pos_zero. apply Hb.
  apply Z.mod_pos_bound. now apply Z.ltb_lt.
Qed.

Lemma hidden_pre_zero : zeros h2 (32 * HIDDEN_SIZE).
Proof.
  apply (bias_add_keeps_zeros (mkdim3 512 1) (mkdim3 256 1));
    [reflexivity|exact bias1_zero|].
  intros j Hj.
  destruct (split_index j HIDDEN_SIZE 32) as (E & Hr & Hc);
    [reflexivity|assumption|].
  rewrite E. unfold h1.
  rewrite (matmul_a_b_exec _ _ _ 32 INPUT_SIZE HIDDEN_SIZE (mkdim3 128 1) (mkdim3 32 32));
    auto; try reflexivity; try (unfold INPUT_SIZE, HIDDEN_SIZE, INT_MAX; simpl; lia).
  apply matrix_product_zero; intros i Hi.
  - apply input_zero. unfold INPUT_SIZE in *. lia.
  - apply weights1_finite. unfold INPUT_SIZE, HIDDEN_SIZE in *. lia.
Qed.

Lemma hidden_zero : zeros h3 (32 * HIDDEN_SIZE).
Proof.
  apply (exec_invariant (fun x => zeros x (32 * HIDDEN_SIZE)));
    [|exact hidden_pre_zero].
  intros t x' Ht Hx' j Hj.
  rewrite (gelu_kernel_thread (mkdim3 512 1)) by
    (try reflexivity;
     apply (schedule_of_in _ _ (scheduler (mkdim3 512 1) (mkdim3 256 1))); auto).
  destruct (owns_index _ _ _ _); [|now apply Hx'].
  rewrite Hx' by assumption. now apply gelu_zero.
Qed.

Lemma logits_zero : zeros o2 (32 * OUTPUT_SIZE).
Proof.
  apply (bias_add_keeps_zeros (mkdim3 2 1) (mkdim3 256 1));
    [reflexivity|exact bias2_zero|].
  intros j Hj.
  destruct (split_index j OUTPUT_SIZE 32) as (E & Hr & Hc);
    [reflexivity|assumption|].
  rewrite E. unfold o1.
  rewrite (matmul_a_b_exec _ _ _ 32 HIDDEN_SIZE OUTPUT_SIZE (mkdim3 1 1) (mkdim3 32 32));
    auto; try reflexivity; try (unfold OUTPUT_SIZE, HIDDEN_SIZE, INT_MAX; simpl; lia).
  apply matrix_product_zero; intros i Hi.
  - rewrite hidden_zero; [reflexivity|]. unfold HIDDEN_SIZE in *. lia.
  - apply weights2_finite. unfold OUTPUT_SIZE, HIDDEN_SIZE in *. lia.
Qed.

Lemma output_uniform :
  forall j, 0 <= j < 32 * OUTPUT_SIZE -> o3 j = tenth32.
Proof.
  intros j Hj.
  destruct (split_index j OUTPUT_SIZE 32) as (E & Hr & Hc);
    [reflexivity|assumption|].
  rewrite E. unfold o3.
  rewrite (softmax_launch (mkdim3 32 1)); auto;
    try reflexivity; try (unfold OUTPUT_SIZE, INT_MAX; simpl; lia).
  apply softmax_out_zero_row; auto.
  intros i Hi. apply logits_zero. unfold OUTPUT_SIZE in *. lia.
Qed.

End ForwardZero.

End Binary32Facts.

(** C5 (as amended): on a batch of 32 zero rows, with zero biases and finite
    weights, and with a mathematical library for which [expf(0) = 1] and
    [tanhf(0) = 0], the launches of [forward] succeed; the hidden
    pre-activations, the activations and the logits are [+0.0f], and every
    output is [1.0f / 10.0f], the binary32 number nearest to 0.1. *)
Theorem forward_on_zero_batch
    (libm_expf libm_logf libm_tanhf libm_coshf : Binary32.float -> Binary32.float)
    (scheduler : dim3 -> dim3 -> list thread)
    (nn : NeuralNetwork) (d_input d_hidden0 d_output0 : buffer Binary32.float) :
  let SF := Binary32.binary32 libm_expf libm_logf libm_tanhf libm_coshf in
  (forall g b, schedule_of g b (scheduler g b)) ->
  libm_expf pos_zero = one32 ->
  libm_tanhf pos_zero = pos_zero ->
  (forall j, 0 <= j < 32 * INPUT_SIZE -> Binary32.is_zero (d_input j) = true) ->
  (forall j, 0 <= j < HIDDEN_SIZE -> Binary32.is_zero (bias1 nn j) = true) ->
  (forall j, 0 <= j < OUTPUT_SIZE -> Binary32.is_zero (bias2 nn j) = true) ->
  (forall j, 0 <= j < INPUT_SIZE * HIDDEN_SIZE ->
             Binary32.is_finite (weights1 nn j) = true) ->
  (forall j, 0 <= j < HIDDEN_SIZE * OUTPUT_SIZE ->
             Binary32.is_finite (weights2 nn j) = true) ->
  exists pre act logits out : activations,
    forward_upto (SF := SF) scheduler 2 nn d_input d_hidden0 d_output0 32 = Some pre /\
    forward_upto (SF := SF) scheduler 3 nn d_input d_hidden0 d_output0 32 = Some act /\
    forward_upto (SF := SF) scheduler 5 nn d_input d_hidden0 d_output0 32 = Some logits /\
    forward (SF := SF) scheduler nn d_input d_hidden0 d_output0 32 = Some out /\
    zeros (d_hidden pre) (32 * HIDDEN_SIZE) /\
    zeros (d_hidden act) (32 * HIDDEN_SIZE) /\
    zeros (d_output logits) (32 * OUTPUT_SIZE) /\
    (forall j, 0 <= j < 32 * OUTPUT_SIZE -> d_output out j = tenth32).
Proof.
  intros SF Hs Hexp Htanh Hin Hb1 Hb2 Hw1 Hw2.
  destruct (forward_upto_32 libm_expf libm_logf libm_tanhf libm_coshf scheduler
              nn d_input d_hidden0 d_output0) as (E2 & E3 & E5 & E6).
  do 4 eexists.
  split; [exact E2|]. split; [exact E3|]. split; [exact E5|]. split; [exact E6|].
  simpl. split; [|split; [|split]].
  - now apply hidden_pre_zero.
  - now apply hidden_zero.
  - now apply logits_zero.
  - now apply output_uniform.
Qed.

(** The number [tenth32] is the binary32 number nearest to 1/10: it is within
    half a unit in the last place (2^-28) of it. *)
Lemma tenth32_nearest :
  tenth32 = Binary32.of_Q 0.1 /\
  ((1 # 10) - (1 # 268435456) <= (13421773 # 134217728))%Q /\
  ((13421773 # 134217728) <= (1 # 10) + (1 # 268435456))%Q.
Proof.
  split; [reflexivity|].
  split; vm_compute; intros H; discriminate H.
Qed.

Lemma forward_on_zero_batch_witness :
  exists pre act logits out : activations,
    forward_upto (SF := sample_scalar) grid_threads 2 unit_network
                 (fun _ => pos_zero) (fun _ => one32) (fun _ => one32) 32 = Some pre /\
    forward_upto (SF := sample_scalar) grid_threads 3 unit_network
                 (fun _ => pos_zero) (fun _ => one32) (fun _ => one32) 32 = Some act /\
    forward_upto (SF := sample_scalar) grid_threads 5 unit_network
                 (fun _ => pos_zero) (fun _ => one32) (fun _ => one32) 32 = Some logits /\
    forward (SF := sample_scalar) grid_threads unit_network
            (fun _ => pos_zero) (fun _ => one32) (fun _ => one32) 32 = Some out /\
    zeros (d_hidden pre) (32 * HIDDEN_SIZE) /\
    zeros (d_hidden act) (32 * HIDDEN_SIZE) /\
    zeros (d_output logits) (32 * OUTPUT_SIZE) /\
    (forall j, 0 <= j < 32 * OUTPUT_SIZE -> d_output out j = tenth32).
Proof.
  pose proof (forward_on_zero_batch sample_expf (fun x => x) sample_tanhf (fun x => x)
                grid_threads unit_network
                (fun _ => pos_zero) (fun _ => one32) (fun _ => one32)) as H.
  cbv zeta in H. apply H; try (intros; reflexivity).
  intros g b. apply Permutation_refl.
Defined.

(** C5 as stated fails for a weight matrix that holds an infinity: the hidden
    pre-activation of the first unit of the first row is then a NaN. *)
Lemma forward_infinite_weight_gives_nan :
  exists pre : activations,
    forward_upto (SF := sample_scalar) grid_threads 2 infinite_weight_network
                 (fun _ => pos_zero) (fun _ => pos_zero) (fun _ => pos_zero) 32 = Some pre /\
    d_hidden pre 0 = S754_nan.
Proof.
  apply (hidden_pre_nan sample_expf (fun x => x) sample_tanhf (fun x => x) grid_threads
           (fun g b => Permutation_refl _) infinite_weight_network
           (fun _ => pos_zero) (fun _ => pos_zero) (fun _ => pos_zero)).
  vm_compute. reflexivity.
Qed.

(** ** Rows of the softmax output *)






(** ** The loss *)

Section ExactLoss.
Local Open Scope R_scope.



End ExactLoss.



Section ExactLossBounds.
Local Open Scope R_scope.








End ExactLossBounds.




(** ** The derivative of the activation *)

Section ExactGelu.
Local Open Scope R_scope.



End ExactGelu.



(** ** The warps of the benchmark launch *)

Section WmmaLaunch.
Import Wmma.
Context {F H : Type} {SF : Scalar F}.
Variable half2float : H -> F.

Lemma run_warp_undefined (WARP_SIZE : Z) (bd : dim3) (A B : buffer H) (C : buffer F)
    (l : list (list thread)) :
  fold_left (run_warp half2float WARP_SIZE bd A B C) l None = None.
Proof. induction l as [|w l IH]; [reflexivity|exact IH]. Qed.

(** A launch with a warp whose threads disagree on their tile is undefined. *)
Lemma run_warps_divergent (WARP_SIZE : Z) (bd : dim3) (A B : buffer H) (C : buffer F)
    (l : list (list thread)) (w : list thread) (D : option (buffer F)) :
  In w l -> warp_tile WARP_SIZE bd w = None ->
  fold_left (run_warp half2float WARP_SIZE bd A B C) l D = None.
Proof.
  revert D. induction l as [|w' l IH]; intros D Hin Hw; [destruct Hin|].
  cbn [fold_left]. destruct Hin as [->|Hin].
  - unfold run_warp at 2. rewrite Hw.
    destruct D; apply run_warp_undefined.
  - now apply IH.
Qed.

Lemma first_warp_launched :
  In first_warp (grid_warps (CalcWMMA_gridDim 4) (CalcWMMA_blockDim 4)).
Proof.
  unfold grid_warps.
  apply in_flat_map. exists 0.
  split; [apply In_range; change (0 <= 0 < 64); lia|].
  apply in_flat_map. exists 0.
  split; [apply In_range; change (0 <= 0 < 64); lia|].
  apply in_map_iff. exists (map (fun l => mkdim3 (l mod 16) (l / 16)) (range 0 32)).
  split; [unfold first_warp; rewrite map_map; reflexivity|].
  vm_compute. left. reflexivity.
Qed.

End WmmaLaunch.

(** ** The launch with 32-thread warps

    Loops that cover an index range, the store of a fragment, and the tile a
    warp computes. *)

Lemma fold_cover {F W : Type} (k : W -> buffer F -> buffer F)
    (covers : W -> Z -> bool) (cell : Z -> F) (l : list W) :
  (forall w, In w l -> forall D p, k w D p = if covers w p then cell p else D p) ->
  forall D p,
    fold_left (fun D w => k w D) l D p
    = if existsb (fun w => covers w p) l then cell p else D p.
Proof.
  induction l as [|w l IH]; intros Hk D p; [reflexivity|].
  cbn [fold_left existsb]. rewrite IH by (intros; apply Hk; now right).
  rewrite (Hk w (or_introl eq_refl)).
  destruct (covers w p), (existsb _ l); reflexivity.
Qed.

Lemma range_app (lo mid hi : Z) :
  lo <= mid <= hi -> range lo hi = range lo mid ++ range mid hi.
Proof.
  intros H. replace hi with (mid + Z.of_nat (Z.to_nat (hi - mid))) by lia.
  induction (Z.to_nat (hi - mid)) as [|d IH].
  - rewrite Z.add_0_r, (range_empty mid mid), app_nil_r by lia. reflexivity.
  - replace (mid + Z.of_nat (S d)) with (mid + Z.of_nat d + 1) by lia.
    rewrite !range_snoc by lia. rewrite IH, app_assoc. reflexivity.
Qed.

Lemma range_shift (lo n : Z) :
  range lo (lo + n) = map (fun k => lo + k) (range 0 n).
Proof.
  unfold range. rewrite map_map.
  replace (lo + n - lo) with (n - 0) by lia.
  apply map_ext. intros; lia.
Qed.

Lemma fold_left_map {A B C : Type} (g : A -> C -> A) (f : B -> C) (l : list B) (a : A) :
  fold_left g (map f l) a = fold_left (fun a x => g a (f x)) l a.
Proof. revert a. induction l as [|x l IH]; intros a; [reflexivity|apply IH]. Qed.

(** A loop over blocks of [w] consecutive indices is the loop over all the
    indices. *)
Lemma fold_blocks {A : Type} (g : A -> Z -> A) (w : Z) (nb : nat) (a : A) :
  0 <= w ->
  fold_left (fun acc s =>
               fold_left (fun acc kk => g acc (s * w + kk)) (range 0 w) acc)
            (range 0 (Z.of_nat nb)) a
  = fold_left g (range 0 (Z.of_nat nb * w)) a.
Proof.
  intros Hw. induction nb as [|nb IH].
  - change (Z.of_nat 0) with 0. rewrite Z.mul_0_l.
    rewrite (range_empty 0 0) by lia. reflexivity.
  - replace (Z.of_nat (S nb)) with (Z.of_nat nb + 1) by lia.
    rewrite range_snoc, fold_left_app, IH by lia. cbn [fold_left].
    rewrite (range_app 0 (Z.of_nat nb * w) ((Z.of_nat nb + 1) * w)) by nia.
    rewrite fold_left_app.
    replace ((Z.of_nat nb + 1) * w) with (Z.of_nat nb * w + w) by lia.
    rewrite range_shift, fold_left_map. reflexivity.
Qed.

Lemma tile_coords (d i ldm : Z) :
  16 <= ldm -> i * ldm <= d < i * ldm + 16 ->
  d / ldm = i /\ d mod ldm = d - i * ldm.
Proof.
  intros Hl Hd.
  destruct (cell_coords ldm i (d - i * ldm)) as [E1 E2]; [lia|].
  replace (i * ldm + (d - i * ldm)) with d in * by lia. auto.
Qed.

Section WmmaProduct.
Import Wmma.
Context {F H : Type} {SF : Scalar F}.
Variable half2float : H -> F.

(** A single row of stores. *)
Lemma store_row (p : buffer F) (base n : Z) (v : Z -> F) (q : Z) :
  fold_left (fun p j => upd p (base + j) (v j)) (range 0 n) p q
  = if (base <=? q) && (q <? base + n) then v (q - base) else p q.
Proof.
  rewrite (fold_cover (fun j p => upd p (base + j) (v j))
                      (fun j q => q =? base + j) (fun q => v (q - base))).
  - destruct (existsb _ _) eqn:E.
    + apply existsb_exists in E as [j [Hj Hq]]. apply In_range in Hj.
      apply Z.eqb_eq in Hq.
      replace ((base <=? q) && (q <? base + n)) with true; [reflexivity|].
      symmetry. apply andb_true_iff. split; [apply Z.leb_le|apply Z.ltb_lt]; lia.
    + destruct ((base <=? q) && (q <? base + n)) eqn:E'; [|reflexivity].
      apply andb_true_iff in E' as [H1 H2]. apply Z.leb_le in H1. apply Z.ltb_lt in H2.
      assert (existsb (fun j => q =? base + j) (range 0 n) = true); [|congruence].
      apply existsb_exists. exists (q - base). split; [apply In_range; lia|].
      apply Z.eqb_eq. lia.
  - intros j _ D q'. unfold upd. destruct (q' =? base + j) eqn:E; [|reflexivity].
    apply Z.eqb_eq in E. f_equal. lia.
Qed.

Lemma store_matrix_sync_spec (p : buffer F) (offset ldm : Z) (c : fragment F) (q : Z) :
  N <= ldm ->
  store_matrix_sync_row_major p offset ldm c q
  = if in_tile offset ldm q
    then c ((q - offset) / ldm) ((q - offset) mod ldm)
    else p q.
Proof.
  intros Hl. unfold store_matrix_sync_row_major, N, M in *.
  rewrite (fold_cover
             (fun i p => fold_left (fun p j => upd p (offset + i * ldm + j) (c i j))
                                   (range 0 16) p)
             (fun i q => (offset + i * ldm <=? q) && (q <? offset + i * ldm + 16))
             (fun q => c ((q - offset) / ldm) ((q - offset) mod ldm))).
  - unfold in_tile, M, N.
    destruct (existsb _ _) eqn:E.
    + apply existsb_exists in E as [i [Hi Hq]]. apply In_range in Hi.
      apply andb_true_iff in Hq as [H1 H2]. apply Z.leb_le in H1. apply Z.ltb_lt in H2.
      destruct (tile_coords (q - offset) i ldm) as [E1 E2]; [lia|lia|].
      rewrite E1, E2.
      replace ((0 <=? q - offset) && (i <? 16) && (q - offset - i * ldm <? 16)) with true;
        [reflexivity|].
      symmetry. rewrite !andb_true_iff, Z.leb_le, !Z.ltb_lt. nia.
    + destruct ((0 <=? q - offset) && _ && _) eqn:E'; [|reflexivity].
      apply andb_true_iff in E' as [E' H3]. apply andb_true_iff in E' as [H1 H2].
      apply Z.leb_le in H1. apply Z.ltb_lt in H2, H3.
      assert (existsb (fun i => (offset + i * ldm <=? q) && (q <? offset + i * ldm + 16))
                      (range 0 16) = true); [|congruence].
      apply existsb_exists. exists ((q - offset) / ldm).
      pose proof (Z.div_mod (q - offset) ldm).
      pose proof (Z.mod_pos_bound (q - offset) ldm).
      assert (0 <= (q - offset) / ldm) by (apply Z.div_pos; lia).
      split; [apply In_range; lia|].
      rewrite andb_true_iff, Z.leb_le, Z.ltb_lt. nia.
  - intros i Hi D q'. apply In_range in Hi.
    rewrite (store_row D (offset + i * ldm) 16 (fun j => c i j)).
    destruct (_ && _) eqn:E; [|reflexivity].
    apply andb_true_iff in E as [H1 H2]. apply Z.leb_le in H1. apply Z.ltb_lt in H2.
    destruct (tile_coords (q' - offset) i ldm) as [E1 E2]; [lia|lia|].
    rewrite E1, E2. f_equal. lia.
Qed.


Lemma mma_fold_pointwise (a b : Z -> fragment H) (l : list Z) (ab : fragment F)
    (i j : Z) :
  fold_left (fun ab k => mma_sync half2float (a k) (b k) ab) l ab i j
  = fold_left (fun acc k =>
                 fold_left (fun acc kk =>
                              fadd acc (fmul (half2float (a k i kk))
                                             (half2float (b k kk j))))
                           (range 0 K) acc)
              l (ab i j).
Proof.
  revert ab. induction l as [|k l IH]; intros ab; [reflexivity|].
  cbn [fold_left]. rewrite IH. reflexivity.
Qed.

Lemma strided_tiles : strided K_TOTAL K = map (fun s => s * K) (range 0 (Z.of_nat 256)).
Proof. reflexivity. Qed.

(** The accumulator fragment after the loop over the contracted dimension. *)
Lemma accumulator_spec (A B : buffer H) (a_row b_row i j : Z) :
  0 <= a_row -> a_row + M <= M_TOTAL -> 0 <= b_row -> b_row + N <= N_TOTAL ->
  0 <= i < M -> 0 <= j < N ->
  fold_left (fun ab_frag k =>
               if (a_row <? M_TOTAL) && (k <? K_TOTAL) &&
                  (b_row <? K_TOTAL) && (k <? N_TOTAL)
               then
                 mma_sync half2float
                   (load_matrix_sync_row_major A (k + imul a_row K_TOTAL) K_TOTAL)
                   (load_matrix_sync_col_major B (k + imul b_row N_TOTAL) N_TOTAL)
                   ab_frag
               else ab_frag)
            (strided K_TOTAL K) (fill_fragment (lit 0)) i j
  = product_col_major half2float A B (a_row + i) (b_row + j).
Proof.
  intros Ha Ha' Hb Hb' Hi Hj.
  unfold M_TOTAL, N_TOTAL, M_TILES, N_TILES, M, N in Ha', Hb', Hi, Hj.
  rewrite (fold_left_ext_in _
             (fun ab_frag k =>
                mma_sync half2float
                  (load_matrix_sync_row_major A (k + a_row * K_TOTAL) K_TOTAL)
                  (load_matrix_sync_col_major B (k + b_row * N_TOTAL) N_TOTAL)
                  ab_frag)).
  2:{ intros ab k Hk. rewrite strided_tiles in Hk.
      apply in_map_iff in Hk as [s [<- Hs]]. apply In_range in Hs.
      unfold imul. rewrite !wrap_small
        by (unfold INT_MAX, K_TOTAL, N_TOTAL, K, N, K_TILES, N_TILES; lia).
      replace ((a_row <? M_TOTAL) && (s * K <? K_TOTAL) &&
               (b_row <? K_TOTAL) && (s * K <? N_TOTAL)) with true; [reflexivity|].
      symmetry. rewrite !andb_true_iff, !Z.ltb_lt.
      unfold M_TOTAL, K_TOTAL, N_TOTAL, M, K, N, M_TILES, K_TILES, N_TILES. lia. }
  rewrite (mma_fold_pointwise
             (fun k => load_matrix_sync_row_major A (k + a_row * K_TOTAL) K_TOTAL)
             (fun k => load_matrix_sync_col_major B (k + b_row * N_TOTAL) N_TOTAL)).
  rewrite strided_tiles, fold_left_map.
  unfold load_matrix_sync_row_major, load_matrix_sync_col_major, fill_fragment.
  set (g := fun acc idx =>
              fadd acc (fmul (half2float (A ((a_row + i) * K_TOTAL + idx)))
                             (half2float (B (idx + (b_row + j) * N_TOTAL))))).
  rewrite (fold_left_ext_in _
             (fun acc s => fold_left (fun acc kk => g acc (s * K + kk)) (range 0 K) acc)).
  2:{ intros acc s Hs. apply fold_left_ext_in. intros acc' kk Hkk.
      unfold g. do 3 f_equal; f_equal; lia. }
  rewrite fold_blocks by (unfold K; lia).
  unfold product_col_major. rewrite <- accumulate_loop. reflexivity.
Qed.

(** What a warp on the tile [(ix, iy)] leaves in [D]. *)
Lemma WMMAF16TensorCore_spec (ix iy : Z) (A B : buffer H) (C D : buffer F) (q : Z) :
  0 <= ix < M_TILES -> 0 <= iy < N_TILES ->
  WMMAF16TensorCore half2float ix iy A B C D q
  = if in_tile (iy * N + ix * M * N_TOTAL) N_TOTAL q
    then fadd (product_col_major half2float A B (q / N_TOTAL) (q mod N_TOTAL)) (C q)
    else D q.
Proof.
  intros Hix Hiy. unfold WMMAF16TensorCore.
  assert (Ea : imul ix M = ix * M)
    by (unfold imul; apply wrap_small; unfold INT_MAX, M, M_TILES in *; lia).
  assert (Eb : imul iy N = iy * N)
    by (unfold imul; apply wrap_small; unfold INT_MAX, N, N_TILES in *; lia).
  rewrite Ea, Eb.
  assert (Ec : imul (ix * M) N_TOTAL = ix * M * N_TOTAL)
    by (unfold imul; apply wrap_small;
        unfold INT_MAX, N_TOTAL, M, N, M_TILES, N_TILES in *; lia).
  rewrite Ec.
  replace ((ix * M <? M_TOTAL) && (iy * N <? N_TOTAL)) with true
    by (symmetry; rewrite andb_true_iff, !Z.ltb_lt;
        unfold M_TOTAL, N_TOTAL, M, N, M_TILES, N_TILES in *; lia).
  rewrite store_matrix_sync_spec by (unfold N_TOTAL, N, N_TILES; lia).
  destruct (in_tile _ _ _) eqn:Ht; [|reflexivity].
  unfold in_tile in Ht. apply andb_true_iff in Ht as [Ht H3].
  apply andb_true_iff in Ht as [H1 H2].
  apply Z.leb_le in H1. apply Z.ltb_lt in H2, H3.
  set (d := q - (iy * N + ix * M * N_TOTAL)) in *.
  assert (HN : 0 < N_TOTAL) by reflexivity.
  pose proof (Z.div_mod d N_TOTAL) as Hd.
  pose proof (Z.mod_pos_bound d N_TOTAL HN) as Hm.
  assert (Hdiv : 0 <= d / N_TOTAL) by (apply Z.div_pos; lia).
  assert (Eq : q = (ix * M + d / N_TOTAL) * N_TOTAL + (iy * N + d mod N_TOTAL))
    by (unfold d in *; lia).
  destruct (cell_coords N_TOTAL (ix * M + d / N_TOTAL) (iy * N + d mod N_TOTAL))
    as [Er Ecol].
  { unfold N_TOTAL, N, M, N_TILES in *. lia. }
  rewrite <- Eq in Er, Ecol. rewrite Er, Ecol.
  rewrite accumulator_spec; unfold M_TOTAL, N_TOTAL, M, N, M_TILES, N_TILES in *; try lia.
  unfold load_matrix_sync_row_major. do 2 f_equal. lia.
Qed.


(** *** The launch with the device's warp width in [WARP_SIZE] *)

Lemma In_grid_warps_32 (wp : list thread) :
  In wp (grid_warps (CalcWMMA_gridDim 32) (CalcWMMA_blockDim 32)) <->
  exists bx by_ w, 0 <= bx < 64 /\ 0 <= by_ < 64 /\ 0 <= w < 16 /\
                   wp = warp_threads bx by_ w.
Proof.
  change (CalcWMMA_gridDim 32) with (mkdim3 64 64).
  change (CalcWMMA_blockDim 32) with (mkdim3 128 4).
  unfold grid_warps, block_warps. cbn [dim_x dim_y].
  change ((128 * 4 + warpSize - 1) / warpSize) with 16.
  change (128 * 4) with 512. unfold warpSize.
  split.
  - intros Hin.
    apply in_flat_map in Hin as [by_ [Hby Hin]].
    apply in_flat_map in Hin as [bx [Hbx Hin]].
    apply in_map_iff in Hin as [w' [<- Hin]].
    apply in_map_iff in Hin as [w [<- Hw]].
    apply In_range in Hby, Hbx, Hw.
    exists bx, by_, w. repeat split; try lia.
    unfold warp_threads. do 3 f_equal. lia.
  - intros (bx & by_ & w & Hbx & Hby & Hw & ->).
    apply in_flat_map. exists by_. split; [apply In_range; lia|].
    apply in_flat_map. exists bx. split; [apply In_range; lia|].
    apply in_map_iff.
    exists (map (fun l => mkdim3 (l mod 128) (l / 128)) (range (w * 32) (w * 32 + 32))).
    split; [reflexivity|].
    apply in_map_iff. exists w. split; [|apply In_range; lia].
    do 2 f_equal. lia.
Qed.

Lemma tile_of_thread_32 (bx by_ l : Z) :
  0 <= bx < 64 -> 0 <= by_ < 64 -> 0 <= l < 512 ->
  tile_ix 32 (mkdim3 128 4) (mkthread (mkdim3 bx by_) (mkdim3 (l mod 128) (l / 128)))
  = 4 * bx + (l / 32) mod 4 /\
  tile_iy (mkdim3 128 4) (mkthread (mkdim3 bx by_) (mkdim3 (l mod 128) (l / 128)))
  = 4 * by_ + l / 128.
Proof.
  intros Hbx Hby Hl. unfold tile_ix, tile_iy, u32. cbn [blockIdx threadIdx dim_x dim_y].
  split.
  - change (32 mod 4294967296) with 32.
    rewrite (Z.mod_small (bx * 128 + l mod 128))
      by (Z.to_euclidean_division_equations; lia).
    rewrite wrap_small by (unfold INT_MAX; Z.to_euclidean_division_equations; lia).
    Z.to_euclidean_division_equations; lia.
  - rewrite thread_index_small by (unfold INT_MAX; Z.to_euclidean_division_equations; lia).
    lia.
Qed.

Lemma warp_tile_32 (bx by_ w : Z) :
  0 <= bx < 64 -> 0 <= by_ < 64 -> 0 <= w < 16 ->
  warp_tile 32 (mkdim3 128 4) (warp_threads bx by_ w)
  = Some (4 * bx + w mod 4, 4 * by_ + w / 4).
Proof.
  intros Hbx Hby Hw. unfold warp_threads.
  rewrite (range_cons (w * 32)) by lia. cbn [map warp_tile].
  destruct (tile_of_thread_32 bx by_ (w * 32)) as [Ex Ey]; [lia|lia|lia|].
  rewrite Ex, Ey.
  replace (forallb _ _) with true.
  - f_equal. f_equal; Z.to_euclidean_division_equations; lia.
  - symmetry. apply forallb_forall. intros t Ht.
    apply in_map_iff in Ht as [ti [<- Ht]].
    apply in_map_iff in Ht as [l [<- Hl]]. apply In_range in Hl.
    destruct (tile_of_thread_32 bx by_ l) as [Ex' Ey']; [lia|lia|lia|].
    rewrite Ex', Ey'. apply andb_true_iff.
    split; apply Z.eqb_eq; Z.to_euclidean_division_equations; lia.
Qed.

Lemma run_warps_defined (A B : buffer H) (C : buffer F) (l : list (list thread))
    (D : buffer F) :
  (forall w, In w l -> warp_tile 32 (mkdim3 128 4) w = Some (tile_of w)) ->
  fold_left (run_warp half2float 32 (mkdim3 128 4) A B C) l (Some D)
  = Some (fold_left (fun D w =>
                       WMMAF16TensorCore half2float (fst (tile_of w)) (snd (tile_of w))
                                         A B C D) l D).
Proof.
  revert D. induction l as [|w l IH]; intros D Hl; [reflexivity|].
  cbn [fold_left]. unfold run_warp at 2.
  rewrite (Hl w (or_introl eq_refl)).
  destruct (tile_of w) as [ix iy] eqn:E.
  apply IH. intros; apply Hl; now right.
Qed.

(** With [WARP_SIZE] 32 the threads of every warp agree on one tile, every
    tile has its warp, and [D] is the product of the row-major [A] and the
    column-major [B], plus [C]. *)
Lemma CalcWMMA_with_warp_size_32 (sched : list (list thread))
    (A B : buffer H) (C D : buffer F) :
  Permutation (grid_warps (CalcWMMA_gridDim 32) (CalcWMMA_blockDim 32)) sched ->
  exists D' : buffer F,
    CalcWMMA half2float 32 sched A B C D = Some D' /\
    forall r c, 0 <= r < M_TOTAL -> 0 <= c < N_TOTAL ->
      D' (r * N_TOTAL + c)
      = fadd (product_col_major half2float A B r c) (C (r * N_TOTAL + c)).
Proof.
  intros Hs.
  assert (Hin : forall w, In w sched <->
                  exists bx by_ w', 0 <= bx < 64 /\ 0 <= by_ < 64 /\ 0 <= w' < 16 /\
                                    w = warp_threads bx by_ w').
  { intros w. rewrite <- In_grid_warps_32. split; intros Hw.
    - eapply Permutation_in; [apply Permutation_sym; exact Hs|exact Hw].
    - eapply Permutation_in; [exact Hs|exact Hw]. }
  assert (Htile : forall w, In w sched ->
                    warp_tile 32 (mkdim3 128 4) w = Some (tile_of w) /\
                    0 <= fst (tile_of w) < M_TILES /\ 0 <= snd (tile_of w) < N_TILES).
  { intros w Hw. apply Hin in Hw as (bx & by_ & w' & Hbx & Hby & Hw' & ->).
    unfold tile_of. rewrite warp_tile_32 by assumption. cbn [fst snd].
    split; [reflexivity|]. unfold M_TILES, N_TILES.
    split; Z.to_euclidean_division_equations; lia. }
  unfold CalcWMMA. change (CalcWMMA_blockDim 32) with (mkdim3 128 4).
  rewrite run_warps_defined by (intros w Hw; now apply Htile).
  eexists. split; [reflexivity|].
  intros r c Hr Hc.
  rewrite (fold_cover
             (fun w D => WMMAF16TensorCore half2float (fst (tile_of w)) (snd (tile_of w))
                                           A B C D)
             (fun w q => in_tile (snd (tile_of w) * N + fst (tile_of w) * M * N_TOTAL)
                                 N_TOTAL q)
             (fun q => fadd (product_col_major half2float A B (q / N_TOTAL) (q mod N_TOTAL)) (C q))).
  2:{ intros w Hw D0 p. destruct (Htile w Hw) as (_ & Hx & Hy).
      now apply WMMAF16TensorCore_spec. }
  replace (existsb _ sched) with true.
  - destruct (cell_coords N_TOTAL r c Hc) as [-> ->]. reflexivity.
  - symmetry. apply existsb_exists.
    exists (warp_threads ((r / 16) / 4) ((c / 16) / 4)
                         (((c / 16) mod 4) * 4 + (r / 16) mod 4)).
    unfold M_TOTAL, N_TOTAL, M, N, M_TILES, N_TILES in Hr, Hc.
    split.
    + apply Hin. exists ((r / 16) / 4), ((c / 16) / 4),
                   (((c / 16) mod 4) * 4 + (r / 16) mod 4).
      repeat split; try reflexivity; Z.to_euclidean_division_equations; lia.
    + unfold tile_of.
      rewrite warp_tile_32 by (Z.to_euclidean_division_equations; lia).
      cbn [fst snd].
      replace (4 * (r / 16 / 4) + (c / 16 mod 4 * 4 + r / 16 mod 4) mod 4)
        with (r / 16) by (Z.to_euclidean_division_equations; lia).
      replace (4 * (c / 16 / 4) + (c / 16 mod 4 * 4 + r / 16 mod 4) / 4)
        with (c / 16) by (Z.to_euclidean_division_equations; lia).
      unfold in_tile, N_TOTAL, N_TILES, M, N.
      replace (r * (16 * 256) + c - (c / 16 * 16 + r / 16 * 16 * (16 * 256)))
        with ((r mod 16) * (16 * 256) + c mod 16)
        by (Z.to_euclidean_division_equations; lia).
      destruct (cell_coords (16 * 256) (r mod 16) (c mod 16)) as [-> ->];
        [Z.to_euclidean_division_equations; lia|].
      rewrite !andb_true_iff, Z.leb_le, !Z.ltb_lt.
      Z.to_euclidean_division_equations; lia.
Qed.

End WmmaProduct.

(** C4 (the code against the claim): with [WARP_SIZE] 4, [CalcWMMA] launches
    blocks of 16 x 4 threads on a 64 x 64 grid.  The threads (0,0) and (4,0)
    of a block are in the same warp of the device (linear indices 0 and 4,
    below 32) and work on different tiles (columns 0 and 1 of tiles), so the
    collective operations of [wmma] get different arguments inside one warp:
    whatever the matrices and the order of the warps, the result of the
    launch is undefined. *)
Theorem CalcWMMA_warps_mix_tiles {F H : Type} {SF : Scalar F}
    (half2float : H -> F) (sched : list (list thread))
    (A B : buffer H) (C D : buffer F) :
  let blockDim := Wmma.CalcWMMA_blockDim 4 in
  let gridDim := Wmma.CalcWMMA_gridDim 4 in
  let t0 := mkthread (mkdim3 0 0) (mkdim3 0 0) in
  let t4 := mkthread (mkdim3 0 0) (mkdim3 4 0) in
  Permutation (Wmma.grid_warps gridDim blockDim) sched ->
  (blockDim = mkdim3 16 4 /\ gridDim = mkdim3 64 64) /\
  (Wmma.linear_index blockDim (threadIdx t0) / Wmma.warpSize
   = Wmma.linear_index blockDim (threadIdx t4) / Wmma.warpSize /\
   Wmma.tile_ix 4 blockDim t0 = 0 /\ Wmma.tile_ix 4 blockDim t4 = 1) /\
  Wmma.CalcWMMA half2float 4 sched A B C D = None.
Proof.
  intros blockDim gridDim t0 t4 Hs.
  split; [split; reflexivity|].
  split; [repeat split; reflexivity|].
  unfold Wmma.CalcWMMA.
  apply (run_warps_divergent half2float 4 _ A B C sched first_warp).
  - eapply Permutation_in; [exact Hs|]. apply first_warp_launched.
  - reflexivity.
Qed.

Lemma CalcWMMA_warps_mix_tiles_witness :
  Wmma.CalcWMMA (SF := real_scalar) (fun h : R => h) 4
                (Wmma.grid_warps (Wmma.CalcWMMA_gridDim 4) (Wmma.CalcWMMA_blockDim 4))
                (fun _ => 1%R) (fun _ => 1%R) (fun _ => 0%R) (fun _ => 0%R)
  = None.
Proof.
  apply (CalcWMMA_warps_mix_tiles (SF := real_scalar) (fun h : R => h)
           (Wmma.grid_warps (Wmma.CalcWMMA_gridDim 4) (Wmma.CalcWMMA_blockDim 4))
           (fun _ => 1%R) (fun _ => 1%R) (fun _ => 0%R) (fun _ => 0%R)).
  apply Permutation_refl.
Defined.

(** * Further properties of the kernels and of the host code *)

(** ** Launches of the element-wise kernels *)

(** A one-dimensional launch of a kernel each of whose threads rewrites the
    cell of its own global index: every cell below [size] is rewritten once,
    from its initial value. *)
Lemma exec_elementwise {F : Type} (kernel : thread -> buffer F -> buffer F)
    (f : Z -> F -> F) (g b : dim3) (sched : list thread) (size : Z) (x : buffer F) :
  schedule_of g b sched -> launch_fits g b = true ->
  dim_y g = 1 -> dim_y b = 1 -> size <= dim_x g * dim_x b ->
  (forall t x j, In t (grid_threads g b) ->
     kernel t x j = if owns_index b size t j then f j (x j) else x j) ->
  forall j, exec kernel sched x j
            = if (0 <=? j) && (j <? size) then f j (x j) else x j.
Proof.
  intros Hs Hf Hgy Hby Hcover Hk j.
  assert (Hin : forall t, In t sched -> In t (grid_threads g b))
    by (intros t; apply (schedule_of_in g b sched t Hs)).
  destruct ((0 <=? j) && (j <? size)) eqn:Hj.
  - apply andb_true_iff in Hj as [H0 H1].
    apply Z.leb_le in H0. apply Z.ltb_lt in H1.
    destruct (grid_covers g b j 0 Hf) as [t (Ht & Htx & _)]; [lia|lia|].
    assert (Ho : owns_index b size t j = true).
    { unfold owns_index. rewrite Htx, Z.eqb_refl.
      apply andb_true_iff; split; [apply Z.ltb_lt; lia|reflexivity]. }
    rewrite (exec_owner kernel (owns_index b size)
                        (fun t => In t (grid_threads g b))) with (t := t).
    + rewrite Hk by assumption. now rewrite Ho.
    + intros t' x' j' Ht' Ho'. rewrite Hk by assumption. now rewrite Ho'.
    + intros t' x' x'' Ht' Hx j' Ho'. rewrite !Hk by assumption.
      rewrite Ho'. f_equal. now apply Hx.
    + now apply (NoDup_schedule g b).
    + exact Hin.
    + intros t1 t2 j' H1' H2' Hne Ho1.
      destruct (owns_index b size t2 j') eqn:Ho2; [|reflexivity].
      exfalso. apply Hne. apply (global_x_inj g b); auto.
      unfold owns_index in Ho1, Ho2.
      apply andb_true_iff in Ho1 as [_ E1]. apply andb_true_iff in Ho2 as [_ E2].
      apply Z.eqb_eq in E1, E2. congruence.
    + now apply (schedule_of_in g b sched t Hs).
    + exact Ho.
  - apply exec_frame. intros t x' Ht. rewrite Hk by (now apply Hin).
    destruct (owns_index b size t j) eqn:Ho; [|reflexivity].
    exfalso.
    destruct (global_in_grid g b t Hf (Hin t Ht)) as (Hx & _).
    unfold owns_index in Ho. apply andb_true_iff in Ho as [H1 H2].
    apply Z.ltb_lt in H1. apply Z.eqb_eq in H2.
    apply andb_false_iff in Hj as [Hj|Hj];
      [apply Z.leb_gt in Hj|apply Z.ltb_ge in Hj]; lia.
Qed.

Lemma bias_add_launch {F : Type} {SF : Scalar F}
    (x bias : buffer F) (batch_size size : Z) (g b : dim3) (sched : list thread) :
  schedule_of g b sched -> launch_fits g b = true ->
  dim_y g = 1 -> dim_y b = 1 -> batch_size * size <= dim_x g * dim_x b ->
  forall r i, 0 <= r < batch_size -> 0 <= i < size ->
    exec (fun t x => bias_add_kernel b t x bias batch_size size) sched x (r * size + i)
    = fadd (x (r * size + i)) (bias i).
Proof.
  intros Hs Hf Hgy Hby Hcover r i Hr Hi.
  rewrite (exec_elementwise _ (fun j v => fadd v (bias (j mod size)))
                            g b sched (batch_size * size)); auto.
  - replace ((0 <=? r * size + i) && (r * size + i <? batch_size * size)) with true
      by (symmetry; apply andb_true_iff; split;
          [apply Z.leb_le|apply Z.ltb_lt]; nia).
    now destruct (cell_coords size r i Hi) as [_ ->].
  - intros t x' j Ht. rewrite (bias_add_kernel_thread g) by assumption.
    replace (0 <? size) with true by (symmetry; apply Z.ltb_lt; lia).
    reflexivity.
Qed.

Lemma gelu_launch {F : Type} {SF : Scalar F}
    (x : buffer F) (size : Z) (g b : dim3) (sched : list thread) :
  schedule_of g b sched -> launch_fits g b = true ->
  dim_y g = 1 -> dim_y b = 1 -> size <= dim_x g * dim_x b ->
  forall j,
    exec (fun t x => gelu_kernel b t x size) sched x j
    = if (0 <=? j) && (j <? size) then gelu (x j) else x j.
Proof.
  intros Hs Hf Hgy Hby Hcover j.
  rewrite (exec_elementwise _ (fun _ v => gelu v) g b sched size); auto.
  intros t x' j' Ht. now apply (gelu_kernel_thread g).
Qed.

(** X1: a launch of [bias_add_kernel] on a one-dimensional grid that covers
    the batch adds [bias[i]] to element [i] of every row exactly once,
    whatever the order of the threads. *)
Theorem bias_add_kernel_adds_bias_once {F : Type} {SF : Scalar F}
    (x bias : buffer F) (batch_size size : Z) (g b : dim3) (sched : list thread) :
  schedule_of g b sched -> launch_fits g b = true ->
  dim_y g = 1 -> dim_y b = 1 -> batch_size * size <= dim_x g * dim_x b ->
  forall r i, 0 <= r < batch_size -> 0 <= i < size ->
    exec (fun t x => bias_add_kernel b t x bias batch_size size) sched x (r * size + i)
    = fadd (x (r * size + i)) (bias i).
Proof. apply bias_add_launch. Qed.

Lemma bias_add_kernel_adds_bias_once_witness :
  exec (fun t x => bias_add_kernel (mkdim3 4 1) t x (fun i => IZR (10 * i)) 2 3)
       (grid_threads (mkdim3 2 1) (mkdim3 4 1)) (fun j => IZR j) (1 * 3 + 2)
  = fadd (IZR (1 * 3 + 2)) (IZR (10 * 2)).
Proof.
  apply (bias_add_kernel_adds_bias_once (fun j => IZR j) (fun i => IZR (10 * i)) 2 3
           (mkdim3 2 1) (mkdim3 4 1) (grid_threads (mkdim3 2 1) (mkdim3 4 1)));
    try apply Permutation_refl; try reflexivity; try (simpl; lia).
Defined.

(** X2: a launch of [gelu_kernel] on a one-dimensional grid that covers [size]
    elements replaces every element [v] below [size] by
    [v * (0.5f * (1.0f + tanhf(0.7978845608f * (v + 0.044715f * v * v * v))))],
    once, and leaves the other elements as they were. *)
Theorem gelu_kernel_activates_once {F : Type} {SF : Scalar F}
    (x : buffer F) (size : Z) (g b : dim3) (sched : list thread) :
  schedule_of g b sched -> launch_fits g b = true ->
  dim_y g = 1 -> dim_y b = 1 -> size <= dim_x g * dim_x b ->
  forall j,
    exec (fun t x => gelu_kernel b t x size) sched x j
    = if (0 <=? j) && (j <? size)
      then fmul (x j)
             (fmul (lit 0.5)
                (fadd (lit 1)
                   (tanhf (fmul (lit 0.7978845608)
                             (fadd (x j)
                                (fmul (fmul (fmul (lit 0.044715) (x j)) (x j)) (x j)))))))
      else x j.
Proof. apply gelu_launch. Qed.

Lemma gelu_kernel_activates_once_witness :
  exec (fun t x => gelu_kernel (mkdim3 4 1) t x 6)
       (grid_threads (mkdim3 2 1) (mkdim3 4 1)) (fun j => IZR j) 5
  = if (0 <=? 5) && (5 <? 6)
    then fmul (IZR 5)
           (fmul (lit 0.5)
              (fadd (lit 1)
                 (tanhf (fmul (lit 0.7978845608)
                           (fadd (IZR 5)
                              (fmul (fmul (fmul (lit 0.044715) (IZR 5)) (IZR 5)) (IZR 5)))))))
    else IZR 5.
Proof.
  apply (gelu_kernel_activates_once (fun j => IZR j) 6 (mkdim3 2 1) (mkdim3 4 1)
           (grid_threads (mkdim3 2 1) (mkdim3 4 1)));
    try apply Permutation_refl; try reflexivity; try (simpl; lia).
Defined.

(** X3: a launch of [multiply_gradients_kernel] on a one-dimensional grid that
    covers [size] elements multiplies every element of [grad1] below [size]
    by the element of [grad2] at the same index, once, and leaves the other
    elements of [grad1] as they were. *)
Theorem multiply_gradients_kernel_multiplies_once {F : Type} {SF : Scalar F}
    (grad1 grad2 : buffer F) (size : Z) (g b : dim3) (sched : list thread) :
  schedule_of g b sched -> launch_fits g b = true ->
  dim_y g = 1 -> dim_y b = 1 -> size <= dim_x g * dim_x b ->
  forall j,
    exec (fun t grad1 => multiply_gradients_kernel b t grad1 grad2 size) sched grad1 j
    = if (0 <=? j) && (j <? size) then fmul (grad1 j) (grad2 j) else grad1 j.
Proof.
  intros Hs Hf Hgy Hby Hcover j.
  rewrite (exec_elementwise _ (fun j v => fmul v (grad2 j)) g b sched size); auto.
  intros t x' j' Ht. now apply (multiply_gradients_kernel_thread g).
Qed.

Lemma multiply_gradients_kernel_multiplies_once_witness :
  exec (fun t grad1 => multiply_gradients_kernel (mkdim3 4 1) t grad1
                         (fun j => IZR (j + 1)) 6)
       (grid_threads (mkdim3 2 1) (mkdim3 4 1)) (fun j => IZR j) 5
  = if (0 <=? 5) && (5 <? 6) then fmul (IZR 5) (IZR (5 + 1)) else IZR 5.
Proof.
  apply (multiply_gradients_kernel_multiplies_once (fun j => IZR j)
           (fun j => IZR (j + 1)) 6 (mkdim3 2 1) (mkdim3 4 1)
           (grid_threads (mkdim3 2 1) (mkdim3 4 1)));
    try apply Permutation_refl; try reflexivity; try (simpl; lia).
Defined.

(** ** The transposed products and the cells a product reads *)

Lemma gemm_scatter_exec {F : Type} (cell : Z -> F) (C : buffer F) (rows cols : Z)
    (g b : dim3) (sched : list thread) :
  schedule_of g b sched -> launch_fits g b = true ->
  rows <= dim_y g * dim_y b -> cols <= dim_x g * dim_x b ->
  forall r c, 0 <= r < rows -> 0 <= c < cols ->
    exec (scatter (gemm_guard b rows cols) (gemm_addr b cols)
                  (fun t => cell (gemm_addr b cols t))) sched C (r * cols + c)
    = cell (r * cols + c).
Proof.
  intros Hs Hf Hy Hx r c Hr Hc.
  apply exec_scatter_hit.
  - now intros t _ _ ->.
  - destruct (grid_covers g b c r Hf) as [t (Ht & Htx & Hty)]; [lia|lia|].
    exists t. split; [now apply (schedule_of_in g b sched)|].
    unfold gemm_guard, gemm_addr. rewrite Htx, Hty. split; [|reflexivity].
    apply andb_true_iff. split; apply Z.ltb_lt; lia.
Qed.

(** X4: on a grid that covers the output, [matmul_a_bt_kernel] leaves in
    C[r,c] (r < m, c < k) the sum over i < n of A[r*n+i] * B[c*n+i], and
    [matmul_at_b_kernel] leaves in C[r,c] (r < n, c < k) the sum over i < m
    of A[i*n+r] * B[i*k+c]; the terms are added to 0.0f in the order of i. *)
Theorem transposed_gemm_kernels_compute_products {F : Type} {SF : Scalar F}
    (A B C : buffer F) (m n k : Z) (g b : dim3) (sched : list thread) :
  schedule_of g b sched -> launch_fits g b = true ->
  0 <= m -> 0 <= n ->
  m * n <= INT_MAX -> n * k <= INT_MAX -> m * k <= INT_MAX ->
  m <= dim_y g * dim_y b -> n <= dim_y g * dim_y b -> k <= dim_x g * dim_x b ->
  (forall r c, 0 <= r < m -> 0 <= c < k ->
     exec (fun t C => matmul_a_bt_kernel b t A B C m n k) sched C (r * k + c)
     = sum_upto (Z.to_nat n) (fun i => fmul (A (r * n + i)) (B (c * n + i)))) /\
  (forall r c, 0 <= r < n -> 0 <= c < k ->
     exec (fun t C => matmul_at_b_kernel b t A B C m n k) sched C (r * k + c)
     = sum_upto (Z.to_nat m) (fun i => fmul (A (i * n + r)) (B (i * k + c)))).
Proof.
  intros Hs Hf Hm Hn Hmn Hnk Hmk Hym Hyn Hx.
  assert (Hin : forall t, In t sched -> In t (grid_threads g b))
    by (intros t; apply (schedule_of_in g b sched t Hs)).
  split; intros r c Hr Hc.
  - rewrite (exec_ext _ (scatter (gemm_guard b m k) (gemm_addr b k)
                                 (fun t => a_bt_cell A B n k (gemm_addr b k t)))).
    2:{ intros t s Ht. apply (matmul_a_bt_scatter g); auto. }
    rewrite (gemm_scatter_exec (a_bt_cell A B n k) C m k g b sched) by auto.
    unfold a_bt_cell. now destruct (cell_coords k r c Hc) as [-> ->].
  - rewrite (exec_ext _ (scatter (gemm_guard b n k) (gemm_addr b k)
                                 (fun t => at_b_cell A B m n k (gemm_addr b k t)))).
    2:{ intros t s Ht. apply (matmul_at_b_scatter g); auto. }
    rewrite (gemm_scatter_exec (at_b_cell A B m n k) C n k g b sched) by auto.
    unfold at_b_cell. now destruct (cell_coords k r c Hc) as [-> ->].
Qed.

Lemma transposed_gemm_kernels_compute_products_witness :
  (forall r c, 0 <= r < 2 -> 0 <= c < 2 ->
     exec (fun t C => matmul_a_bt_kernel (mkdim3 3 3) t
                        (fun i => IZR i) (fun i => IZR (2 * i)) C 2 3 2)
          (grid_threads (mkdim3 1 1) (mkdim3 3 3)) (fun _ => 7%R) (r * 2 + c)
     = sum_upto (Z.to_nat 3) (fun i => fmul (IZR (r * 3 + i)) (IZR (2 * (c * 3 + i))))) /\
  (forall r c, 0 <= r < 3 -> 0 <= c < 2 ->
     exec (fun t C => matmul_at_b_kernel (mkdim3 3 3) t
                        (fun i => IZR i) (fun i => IZR (2 * i)) C 2 3 2)
          (grid_threads (mkdim3 1 1) (mkdim3 3 3)) (fun _ => 7%R) (r * 2 + c)
     = sum_upto (Z.to_nat 2) (fun i => fmul (IZR (i * 3 + r)) (IZR (2 * (i * 2 + c))))).
Proof.
  apply (transposed_gemm_kernels_compute_products
           (fun i => IZR i) (fun i => IZR (2 * i)) (fun _ => 7%R) 2 3 2
           (mkdim3 1 1) (mkdim3 3 3) (grid_threads (mkdim3 1 1) (mkdim3 3 3)));
    try apply Permutation_refl; try reflexivity;
    try (unfold INT_MAX; simpl; lia).
Defined.

(** X5: the output of [matmul_a_b_kernel] depends on the first m*n cells of A
    and the first n*k cells of B only: two launches whose inputs agree on
    these cells leave the same buffer C, whatever the other cells of A and B
    hold and whatever the orders of the threads. *)
Theorem matmul_a_b_kernel_reads_inside_operands {F : Type} {SF : Scalar F}
    (A A' B B' C : buffer F) (m n k : Z) (g b : dim3) (s1 s2 : list thread) :
  schedule_of g b s1 -> schedule_of g b s2 -> launch_fits g b = true ->
  0 <= n -> m * n <= INT_MAX -> n * k <= INT_MAX -> m * k <= INT_MAX ->
  (forall j, 0 <= j < m * n -> A j = A' j) ->
  (forall j, 0 <= j < n * k -> B j = B' j) ->
  forall j,
    exec (fun t C => matmul_a_b_kernel b t A B C m n k) s1 C j
    = exec (fun t C => matmul_a_b_kernel b t A' B' C m n k) s2 C j.
Proof.
  intros Hs1 Hs2 Hf Hn Hmn Hnk Hmk HA HB j.
  assert (Hs : forall t, In t s1 <-> In t s2).
  { intros t. rewrite (schedule_of_in g b s1), (schedule_of_in g b s2); tauto. }
  rewrite (exec_ext _ (scatter (gemm_guard b m k) (gemm_addr b k)
                               (fun t => a_b_cell A B n k (gemm_addr b k t))) s1).
  2:{ intros t s Ht. apply (matmul_a_b_scatter g); auto.
      now apply (schedule_of_in g b s1). }
  rewrite (exec_ext _ (scatter (gemm_guard b m k) (gemm_addr b k)
                               (fun t => a_b_cell A' B' n k (gemm_addr b k t))) s2).
  2:{ intros t s Ht. apply (matmul_a_b_scatter g); auto.
      now apply (schedule_of_in g b s2). }
  apply (exec_scatter_eq _ _ (a_b_cell A B n k) (a_b_cell A' B' n k)); [exact Hs|].
  intros t Ht Hg. apply (schedule_of_in g b s1) in Ht; [|assumption].
  destruct (gemm_addr_in_output g b m k t Hf Ht Hg) as (Hy & Hx & _).
  unfold a_b_cell, matrix_product, gemm_addr.
  destruct (cell_coords k (global_y b t) (global_x b t) Hx) as [-> ->].
  apply sum_upto_ext. intros i Hi.
  rewrite HA, HB by nia. reflexivity.
Qed.

Lemma matmul_a_b_kernel_reads_inside_operands_witness :
  exec (fun t C => matmul_a_b_kernel (mkdim3 2 2) t
                     (fun j => IZR j) (fun j => IZR (j + 1)) C 2 3 2)
       (grid_threads (mkdim3 1 1) (mkdim3 2 2)) (fun _ => 7%R) 3
  = exec (fun t C => matmul_a_b_kernel (mkdim3 2 2) t
                       (fun j => if j <? 6 then IZR j else 0%R)
                       (fun j => if j <? 6 then IZR (j + 1) else 0%R) C 2 3 2)
         (grid_threads (mkdim3 1 1) (mkdim3 2 2)) (fun _ => 7%R) 3.
Proof.
  apply (matmul_a_b_kernel_reads_inside_operands
           (fun j => IZR j) (fun j => if j <? 6 then IZR j else 0%R)
           (fun j => IZR (j + 1)) (fun j => if j <? 6 then IZR (j + 1) else 0%R)
           (fun _ => 7%R) 2 3 2 (mkdim3 1 1) (mkdim3 2 2));
    try apply Permutation_refl; try reflexivity;
    try (unfold INT_MAX; simpl; lia);
    intros j Hj; replace (j <? 6) with true
      by (symmetry; apply Z.ltb_lt; lia); reflexivity.
Defined.

(** ** The rows of the softmax kernel *)

Lemma softmax_launch_frame {F : Type} {SF : Scalar F}
    (g : dim3) (sched : list thread) (x : buffer F) (batch_size size : Z) :
  schedule_of g (mkdim3 1 1) sched ->
  batch_size <= dim_x g <= INT_MAX + 1 -> 0 <= size -> batch_size * size <= INT_MAX ->
  forall j, ~ 0 <= j < batch_size * size ->
    exec (fun t x => softmax_kernel (mkdim3 1 1) t x batch_size size) sched x j = x j.
Proof.
  intros Hs Hgx Hsize Hfit j Hj.
  apply exec_frame. intros t x' Ht.
  apply (schedule_of_in _ _ _ _ Hs) in Ht. apply In_grid_threads in Ht.
  destruct Ht as [[Hbx _] _].
  destruct (Z_lt_le_dec (dim_x (blockIdx t)) batch_size) as [Hlt|Hge].
  - destruct (softmax_kernel_thread (mkdim3 1 1) t x' batch_size size)
      as [_ H2]; [lia|lia|lia|lia|].
    apply H2. unfold in_row. apply andb_false_iff.
    destruct (Z_lt_le_dec j (dim_x (blockIdx t) * size));
      [left; apply Z.leb_gt; lia|right; apply Z.ltb_ge; nia].
  - unfold softmax_kernel.
    rewrite thread_index_small by (unfold INT_MAX in *; lia).
    replace (dim_x (blockIdx t) * 1 + 0 <? batch_size) with false
      by (symmetry; apply Z.ltb_ge; lia).
    reflexivity.
Qed.

(** X6: the launch [softmax_kernel<<<blocks, 1>>>] with at least [batch_size]
    blocks rewrites each of the [batch_size] rows from the initial values of
    that row alone: entry i of row r becomes
    [fmaxf(expf(x[r,i] - max_r) / sum_r, 1e-7f)], with [max_r] the [fmaxf] of
    the row and [sum_r] the sum of the exponentials of the row added to 0.0f
    in the order of the columns; the cells outside the rows are unchanged. *)
Theorem softmax_kernel_rewrites_rows {F : Type} {SF : Scalar F}
    (x : buffer F) (batch_size size : Z) (g : dim3) (sched : list thread) :
  schedule_of g (mkdim3 1 1) sched ->
  dim_y g = 1 -> batch_size <= dim_x g <= INT_MAX + 1 ->
  0 <= size -> batch_size * size <= INT_MAX ->
  let out := exec (fun t x => softmax_kernel (mkdim3 1 1) t x batch_size size) sched x in
  (forall r i, 0 <= r < batch_size -> 0 <= i < size ->
     let max_r :=
       fold_left (fun m i' => fmaxf m (x (r * size + i'))) (range 1 size) (x (r * size)) in
     let sum_r :=
       sum_upto (Z.to_nat size) (fun i' => expf (fsub (x (r * size + i')) max_r)) in
     out (r * size + i)
     = fmaxf (fdiv (expf (fsub (x (r * size + i)) max_r)) sum_r) (lit 1e-7)) /\
  (forall j, ~ 0 <= j < batch_size * size -> out j = x j).
Proof.
  intros Hs Hgy Hgx Hsize Hfit out. split.
  - intros r i Hr Hi max_r sum_r. unfold out.
    rewrite (softmax_launch g) by assumption. reflexivity.
  - intros j Hj. unfold out. apply (softmax_launch_frame g); auto; lia.
Qed.

Lemma softmax_kernel_rewrites_rows_witness :
  let x := fun j => IZR j in
  let out := exec (fun t x => softmax_kernel (mkdim3 1 1) t x 2 3)
                  (grid_threads (mkdim3 4 1) (mkdim3 1 1)) x in
  (forall r i, 0 <= r < 2 -> 0 <= i < 3 ->
     let max_r :=
       fold_left (fun m i' => fmaxf m (x (r * 3 + i'))) (range 1 3) (x (r * 3)) in
     let sum_r :=
       sum_upto (Z.to_nat 3) (fun i' => expf (fsub (x (r * 3 + i')) max_r)) in
     out (r * 3 + i)
     = fmaxf (fdiv (expf (fsub (x (r * 3 + i)) max_r)) sum_r) (lit 1e-7)) /\
  (forall j, ~ 0 <= j < 2 * 3 -> out j = x j).
Proof.
  apply (softmax_kernel_rewrites_rows (fun j => IZR j) 2 3 (mkdim3 4 1)
           (grid_threads (mkdim3 4 1) (mkdim3 1 1)));
    try apply Permutation_refl; try reflexivity;
    try (unfold INT_MAX; simpl; lia).
Defined.

Section ExactSoftmax.
Local Open Scope R_scope.






End ExactSoftmax.



(** ** The loss of a batch *)





(** ** The activation in exact arithmetic *)

Section ExactActivation.
Local Open Scope R_scope.




End ExactActivation.



(** ** The forward pass *)

(** The grid sizes [forward] computes for a batch. *)
Lemma forward_grid_rows (batch_size : Z) :
  0 <= batch_size <= INT_MAX ->
  udiv (usub (uadd batch_size 32) 1) 32 = (batch_size + 31) / 32.
Proof.
  intros H. unfold udiv, usub, uadd, u32, INT_MAX in *.
  rewrite (Z.mod_small (batch_size + 32)) by lia.
  rewrite (Z.mod_small (batch_size + 32 - 1)) by lia.
  rewrite (Z.mod_small (batch_size + 32 - 1)) by lia.
  change (32 mod 4294967296) with 32. f_equal. lia.
Qed.

Lemma forward_grid_cells (batch_size size : Z) :
  0 <= batch_size -> 0 < size -> batch_size * size + 255 <= INT_MAX ->
  imul batch_size size = batch_size * size /\
  u32 (idiv (iadd (imul batch_size size) 255) 256) = (batch_size * size + 255) / 256.
Proof.
  intros Hb Hs H. unfold INT_MAX in *.
  assert (E : imul batch_size size = batch_size * size)
    by (unfold imul; apply wrap_small; unfold INT_MAX; nia).
  split; [exact E|]. rewrite E. unfold iadd, idiv.
  rewrite (wrap_small (batch_size * size + 255)) by (unfold INT_MAX; nia).
  rewrite Z.quot_div_nonneg by nia.
  assert (0 <= (batch_size * size + 255) / 256 <= batch_size * size + 255).
  { split; [apply Z.div_pos; nia|].
    apply Z.div_le_upper_bound; nia. }
  rewrite wrap_small by (unfold INT_MAX; lia).
  unfold u32. apply Z.mod_small. lia.
Qed.

Section Forward.
Context {F : Type} {SF : Scalar F}.
Variable scheduler : dim3 -> dim3 -> list thread.
Hypothesis scheduler_fair : forall g b, schedule_of g b (scheduler g b).
Variables (nn : NeuralNetwork (F := F)) (d_input h0 o0 : buffer F) (batch_size : Z).
Hypothesis batch_fits : 1 <= batch_size <= 524287.

Let rows : Z := (batch_size + 31) / 32.
Let hidden_blocks : Z := (batch_size * HIDDEN_SIZE + 255) / 256.
Let output_blocks : Z := (batch_size * OUTPUT_SIZE + 255) / 256.

Let h1 : buffer F :=
  exec (fun t C => matmul_a_b_kernel (mkdim3 32 32) t d_input (weights1 nn) C
                                     batch_size INPUT_SIZE HIDDEN_SIZE)
       (scheduler (mkdim3 128 rows) (mkdim3 32 32)) h0.
Let h2 : buffer F :=
  exec (fun t x => bias_add_kernel (mkdim3 256 1) t x (bias1 nn) batch_size HIDDEN_SIZE)
       (scheduler (mkdim3 hidden_blocks 1) (mkdim3 256 1)) h1.
Let h3 : buffer F :=
  exec (fun t x => gelu_kernel (mkdim3 256 1) t x (batch_size * HIDDEN_SIZE))
       (scheduler (mkdim3 hidden_blocks 1) (mkdim3 256 1)) h2.
Let o1 : buffer F :=
  exec (fun t C => matmul_a_b_kernel (mkdim3 32 32) t h3 (weights2 nn) C
                                     batch_size HIDDEN_SIZE OUTPUT_SIZE)
       (scheduler (mkdim3 1 rows) (mkdim3 32 32)) o0.
Let o2 : buffer F :=
  exec (fun t x => bias_add_kernel (mkdim3 256 1) t x (bias2 nn) batch_size OUTPUT_SIZE)
       (scheduler (mkdim3 output_blocks 1) (mkdim3 256 1)) o1.
Let o3 : buffer F :=
  exec (fun t x => softmax_kernel (mkdim3 1 1) t x batch_size OUTPUT_SIZE)
       (scheduler (mkdim3 batch_size 1) (mkdim3 1 1)) o2.

Lemma rows_bounds : 1 <= rows <= 16384 /\ batch_size <= rows * 32.
Proof. unfold rows. Z.to_euclidean_division_equations; lia. Qed.

Lemma hidden_blocks_bounds :
  1 <= hidden_blocks <= 8388608 /\ batch_size * HIDDEN_SIZE <= hidden_blocks * 256.
Proof.
  unfold hidden_blocks, HIDDEN_SIZE. Z.to_euclidean_division_equations; lia.
Qed.

Lemma output_blocks_bounds :
  1 <= output_blocks <= 8388608 /\ batch_size * OUTPUT_SIZE <= output_blocks * 256.
Proof.
  unfold output_blocks, OUTPUT_SIZE. Z.to_euclidean_division_equations; lia.
Qed.

Lemma launch_valid {St : Type} (g b : dim3) (kernel : dim3 -> thread -> St -> St)
    (s : St) :
  valid_config g b = true ->
  launch scheduler g b kernel s = Some (exec (kernel b) (scheduler g b) s).
Proof. intros H. unfold launch. now rewrite H. Qed.

Lemma valid_config_spec (g b : dim3) :
  0 < dim_x g <= INT_MAX -> 0 < dim_y g <= 65535 ->
  0 < dim_x b -> 0 < dim_y b -> dim_x b * dim_y b <= 1024 ->
  valid_config g b = true.
Proof.
  intros Hgx Hgy Hbx Hby Hb. unfold valid_config.
  rewrite !andb_true_iff, !Z.ltb_lt, !Z.leb_le. lia.
Qed.

(** The six launches of [forward] are accepted, and these are the buffers
    they leave. *)
Lemma forward_buffers :
  forward scheduler nn d_input h0 o0 batch_size = Some (mkactivations h3 o3).
Proof.
  pose proof rows_bounds as Hr.
  pose proof hidden_blocks_bounds as Hh.
  pose proof output_blocks_bounds as Ho.
  unfold forward, forward_steps.
  cbn [dim_x dim_y].
  rewrite (forward_grid_rows batch_size) by (unfold INT_MAX; lia).
  fold rows.
  change (udiv (usub (uadd HIDDEN_SIZE 32) 1) 32) with 128.
  change (udiv (usub (uadd OUTPUT_SIZE 32) 1) 32) with 1.
  destruct (forward_grid_cells batch_size HIDDEN_SIZE) as [E1 E2];
    [lia|reflexivity|unfold HIDDEN_SIZE, INT_MAX; lia|].
  destruct (forward_grid_cells batch_size OUTPUT_SIZE) as [E3 E4];
    [lia|reflexivity|unfold OUTPUT_SIZE, INT_MAX; lia|].
  rewrite E2, E4, E1. fold hidden_blocks output_blocks.
  replace (u32 batch_size) with batch_size
    by (unfold u32; rewrite Z.mod_small; lia).
  cbn [run_steps].
  do 3 (unfold on_hidden at 1; cbn [d_hidden d_output];
        rewrite launch_valid
          by (apply valid_config_spec; cbn [dim_x dim_y]; unfold INT_MAX; lia)).
  do 3 (unfold on_output at 1; cbn [d_hidden d_output];
        rewrite launch_valid
          by (apply valid_config_spec; cbn [dim_x dim_y]; unfold INT_MAX; lia)).
  reflexivity.
Qed.

Lemma forward_hidden (r c : Z) :
  0 <= r < batch_size -> 0 <= c < HIDDEN_SIZE ->
  h3 (r * HIDDEN_SIZE + c)
  = gelu (fadd (matrix_product d_input (weights1 nn) INPUT_SIZE HIDDEN_SIZE r c)
               (bias1 nn c)).
Proof.
  intros Hr Hc.
  pose proof rows_bounds as Hrows.
  pose proof hidden_blocks_bounds as Hh.
  unfold h3.
  rewrite (gelu_launch h2 (batch_size * HIDDEN_SIZE) (mkdim3 hidden_blocks 1)
                       (mkdim3 256 1)); auto.
  2:{ apply launch_fits_spec. cbn [dim_x dim_y]. unfold INT_MAX. lia. }
  2:{ cbn [dim_x dim_y]. lia. }
  replace ((0 <=? r * HIDDEN_SIZE + c)
           && (r * HIDDEN_SIZE + c <? batch_size * HIDDEN_SIZE)) with true
    by (symmetry; apply andb_true_iff; split;
        [apply Z.leb_le|apply Z.ltb_lt]; unfold HIDDEN_SIZE in *; lia).
  f_equal. unfold h2.
  rewrite (bias_add_launch h1 (bias1 nn) batch_size HIDDEN_SIZE
                           (mkdim3 hidden_blocks 1) (mkdim3 256 1)); auto.
  2:{ apply launch_fits_spec. cbn [dim_x dim_y]. unfold INT_MAX. lia. }
  2:{ cbn [dim_x dim_y]. lia. }
  f_equal. unfold h1.
  apply (matmul_a_b_exec _ _ _ batch_size INPUT_SIZE HIDDEN_SIZE
                         (mkdim3 128 rows) (mkdim3 32 32)); auto;
    try (apply launch_fits_spec);
    cbn [dim_x dim_y]; unfold INPUT_SIZE, HIDDEN_SIZE, INT_MAX in *; lia.
Qed.

Lemma forward_output (r i : Z) :
  0 <= r < batch_size -> 0 <= i < OUTPUT_SIZE ->
  o3 (r * OUTPUT_SIZE + i)
  = softmax_out (forward_logits nn h3) (r * OUTPUT_SIZE) OUTPUT_SIZE i.
Proof.
  intros Hr Hi.
  pose proof rows_bounds as Hrows.
  pose proof output_blocks_bounds as Ho.
  unfold o3.
  rewrite (softmax_launch (mkdim3 batch_size 1)); auto;
    try (cbn [dim_x dim_y]; unfold OUTPUT_SIZE, INT_MAX in *; lia).
  apply softmax_out_ext; [|assumption].
  intros i' Hi'. unfold o2.
  rewrite (bias_add_launch o1 (bias2 nn) batch_size OUTPUT_SIZE
                           (mkdim3 output_blocks 1) (mkdim3 256 1)); auto.
  2:{ apply launch_fits_spec. cbn [dim_x dim_y]. unfold INT_MAX. lia. }
  2:{ cbn [dim_x dim_y]. lia. }
  unfold forward_logits.
  destruct (cell_coords OUTPUT_SIZE r i' Hi') as [-> ->].
  f_equal. unfold o1.
  apply (matmul_a_b_exec _ _ _ batch_size HIDDEN_SIZE OUTPUT_SIZE
                         (mkdim3 1 rows) (mkdim3 32 32)); auto;
    try (apply launch_fits_spec);
    cbn [dim_x dim_y]; unfold OUTPUT_SIZE, HIDDEN_SIZE, INT_MAX in *; lia.
Qed.

End Forward.

(** X11: for a batch of 1 to 524287 rows, [forward] gets through its six
    launches and, whatever the order in which the device runs the threads of
    each launch, leaves gelu(X W1 + b1) in the hidden buffer and the softmax
    rows of (hidden W2 + b2) in the output buffer. *)
Theorem forward_computes_network {F : Type} {SF : Scalar F}
    (scheduler : dim3 -> dim3 -> list thread) (nn : NeuralNetwork)
    (d_input d_hidden0 d_output0 : buffer F) (batch_size : Z) :
  (forall g b, schedule_of g b (scheduler g b)) ->
  1 <= batch_size <= 524287 ->
  exists out : activations,
    forward scheduler nn d_input d_hidden0 d_output0 batch_size = Some out /\
    (forall r c, 0 <= r < batch_size -> 0 <= c < HIDDEN_SIZE ->
       d_hidden out (r * HIDDEN_SIZE + c)
       = gelu (fadd (matrix_product d_input (weights1 nn) INPUT_SIZE HIDDEN_SIZE r c)
                    (bias1 nn c))) /\
    (forall r i, 0 <= r < batch_size -> 0 <= i < OUTPUT_SIZE ->
       d_output out (r * OUTPUT_SIZE + i)
       = softmax_out (forward_logits nn (d_hidden out)) (r * OUTPUT_SIZE) OUTPUT_SIZE i).
Proof.
  intros Hs Hb.
  eexists. split; [apply (forward_buffers scheduler nn d_input d_hidden0 d_output0
                            batch_size Hb)|].
  cbn [d_hidden d_output]. split.
  - intros r c Hr Hc. now apply forward_hidden.
  - intros r i Hr Hi. now apply forward_output.
Qed.

(** X12: [forward] on an empty batch, or on a batch of more than 2097120 rows,
    does not get past its first launch: the grid has no row of blocks, or
    more than 65535, and the check after the launch ends the process. *)
Theorem forward_rejects_empty_and_oversized_batch {F : Type} {SF : Scalar F}
    (scheduler : dim3 -> dim3 -> list thread) (nn : NeuralNetwork)
    (d_input d_hidden0 d_output0 : buffer F) (batch_size : Z) :
  - 2147483648 <= batch_size <= INT_MAX ->
  batch_size <= 0 \/ 2097120 < batch_size ->
  forward scheduler nn d_input d_hidden0 d_output0 batch_size = None.
Proof.
  intros Hint Hb. unfold forward, forward_steps.
  cbn [run_steps on_hidden d_hidden d_output dim_x dim_y].
  unfold launch at 1.
  replace (valid_config _ _) with false; [reflexivity|].
  symmetry. unfold valid_config. cbn [dim_x dim_y].
  set (gy := udiv (usub (uadd batch_size 32) 1) 32).
  assert (Hgy : gy <= 0 \/ 65535 < gy).
  { unfold gy, udiv, usub, uadd, u32, INT_MAX in *.
    change (32 mod 4294967296) with 32.
    Z.to_euclidean_division_equations; lia. }
  destruct Hgy as [Hgy|Hgy].
  - replace (0 <? gy) with false by (symmetry; apply Z.ltb_ge; lia).
    now rewrite !andb_false_r.
  - replace (gy <=? 65535) with false by (symmetry; apply Z.leb_gt; lia).
    now rewrite !andb_false_r.
Qed.

Lemma forward_computes_network_witness :
  exists out : activations,
    forward grid_threads ramp_network (fun j => IZR j) (fun _ => 0%R) (fun _ => 0%R) 2
    = Some out /\
    (forall r c, 0 <= r < 2 -> 0 <= c < HIDDEN_SIZE ->
       d_hidden out (r * HIDDEN_SIZE + c)
       = gelu (fadd (matrix_product (fun j => IZR j) (weights1 ramp_network)
                                    INPUT_SIZE HIDDEN_SIZE r c)
                    (bias1 ramp_network c))) /\
    (forall r i, 0 <= r < 2 -> 0 <= i < OUTPUT_SIZE ->
       d_output out (r * OUTPUT_SIZE + i)
       = softmax_out (forward_logits ramp_network (d_hidden out))
                     (r * OUTPUT_SIZE) OUTPUT_SIZE i).
Proof.
  exact (forward_computes_network grid_threads ramp_network (fun j => IZR j)
           (fun _ => 0%R) (fun _ => 0%R) 2
           (fun g b => Permutation_refl _) ltac:(lia)).
Defined.

Lemma forward_rejects_empty_and_oversized_batch_witness :
  forward grid_threads ramp_network (fun j => IZR j) (fun _ => 0%R) (fun _ => 0%R) 0
  = None.
Proof.
  exact (forward_rejects_empty_and_oversized_batch grid_threads ramp_network
           (fun j => IZR j) (fun _ => 0%R) (fun _ => 0%R) 0
           ltac:(unfold INT_MAX; lia) ltac:(left; lia)).
Defined.

(** ** Host initialisation *)



Section ExactInit.
Local Open Scope R_scope.


End ExactInit.



(** X14: [initialize_bias] stores 0.0f in the first [size] cells and leaves the
    others as they were; with [size <= 0] it stores nothing. *)
Theorem initialize_bias_zeroes_prefix {F : Type} {SF : Scalar F}
    (bias : buffer F) (size : Z) :
  forall j, initialize_bias bias size j
            = if (0 <=? j) && (j <? size) then lit 0 else bias j.
Proof.
  intros j. unfold initialize_bias.
  rewrite (fold_cover (fun i p => upd p i (lit 0)) (fun i q => q =? i) (fun _ => lit 0)).
  - destruct (existsb _ _) eqn:E.
    + apply existsb_exists in E as [i [Hi Hq]]. apply In_range in Hi.
      apply Z.eqb_eq in Hq. subst i.
      replace ((0 <=? j) && (j <? size)) with true; [reflexivity|].
      symmetry. apply andb_true_iff. split; [apply Z.leb_le|apply Z.ltb_lt]; lia.
    + destruct ((0 <=? j) && (j <? size)) eqn:E'; [|reflexivity].
      apply andb_true_iff in E' as [H1 H2]. apply Z.leb_le in H1. apply Z.ltb_lt in H2.
      assert (existsb (fun i => j =? i) (range 0 size) = true); [|congruence].
      apply existsb_exists. exists j. split; [apply In_range; lia|apply Z.eqb_refl].
  - intros i _ D q. unfold upd. destruct (q =? i); reflexivity.
Qed.

(** ** The empty batch *)

(** X15: in binary32 the loss of an empty batch is a NaN: the sum is 0.0f and
    it is divided by 0. *)
Theorem cross_entropy_loss_of_empty_batch_is_nan
    (libm_expf libm_logf libm_tanhf libm_coshf : Binary32.float -> Binary32.float)
    (output : buffer Binary32.float) (labels : Z -> Z) :
  cross_entropy_loss
    (SF := Binary32.binary32 libm_expf libm_logf libm_tanhf libm_coshf)
    output labels 0
  = S754_nan.
Proof. reflexivity. Qed.

(** ** The tensor-core benchmark: tiles and launch geometry *)

Section WmmaTiles.
Import Wmma.
Context {F H : Type} {SF : Scalar F}.
Variable half2float : H -> F.

Lemma WMMAF16TensorCore_out_of_range (ix iy : Z) (A B : buffer H) (C D : buffer F) :
  0 <= ix -> ix * M <= INT_MAX -> 0 <= iy -> iy * N <= INT_MAX ->
  M_TILES <= ix \/ N_TILES <= iy ->
  WMMAF16TensorCore half2float ix iy A B C D = D.
Proof.
  intros Hix Hix' Hiy Hiy' Hout. unfold WMMAF16TensorCore.
  assert (Ea : imul ix M = ix * M)
    by (unfold imul; apply wrap_small; unfold INT_MAX, M in *; lia).
  assert (Eb : imul iy N = iy * N)
    by (unfold imul; apply wrap_small; unfold INT_MAX, N in *; lia).
  rewrite Ea, Eb.
  replace ((ix * M <? M_TOTAL) && (iy * N <? N_TOTAL)) with false; [reflexivity|].
  symmetry. apply andb_false_iff.
  unfold M_TOTAL, N_TOTAL, M, N, M_TILES, N_TILES in *.
  destruct Hout; [left|right]; apply Z.ltb_ge; lia.
Qed.

End WmmaTiles.

(** X16: a warp whose threads agree on the tile (ix, iy) and run
    [WMMAF16TensorCore] store, in the 16 x 16 tile of D at rows 16 ix.. and
    columns 16 iy.., the products of the rows of A (row-major) and the
    columns of B (column-major) accumulated from 0.0f along the contracted
    dimension, plus the tile of C; the rest of D is unchanged, and a tile
    outside the 256 x 256 tiles of the matrices is not stored at all. *)
Theorem WMMAF16TensorCore_stores_one_tile {F H : Type} {SF : Scalar F}
    (half2float : H -> F) (ix iy : Z) (A B : buffer H) (C D : buffer F) :
  0 <= ix -> ix * Wmma.M <= INT_MAX -> 0 <= iy -> iy * Wmma.N <= INT_MAX ->
  forall q,
    Wmma.WMMAF16TensorCore half2float ix iy A B C D q
    = if (ix <? Wmma.M_TILES) && (iy <? Wmma.N_TILES) &&
         in_tile (iy * Wmma.N + ix * Wmma.M * Wmma.N_TOTAL) Wmma.N_TOTAL q
      then fadd (product_col_major half2float A B (q / Wmma.N_TOTAL) (q mod Wmma.N_TOTAL))
                (C q)
      else D q.
Proof.
  intros Hix Hix' Hiy Hiy' q.
  destruct ((ix <? Wmma.M_TILES) && (iy <? Wmma.N_TILES)) eqn:E.
  - apply andb_true_iff in E as [E1 E2]. apply Z.ltb_lt in E1, E2.
    cbn [andb]. apply WMMAF16TensorCore_spec; lia.
  - cbn [andb]. rewrite WMMAF16TensorCore_out_of_range; auto.
    apply andb_false_iff in E as [E|E]; apply Z.ltb_ge in E; auto.
Qed.

Lemma WMMAF16TensorCore_stores_one_tile_witness :
  Wmma.WMMAF16TensorCore (fun h : R => h) 1 2
    (fun j => IZR j) (fun j => IZR (2 * j)) (fun j => IZR (j + 1)) (fun _ => 0%R) 4130
  = if (1 <? Wmma.M_TILES) && (2 <? Wmma.N_TILES) &&
       in_tile (2 * Wmma.N + 1 * Wmma.M * Wmma.N_TOTAL) Wmma.N_TOTAL 4130
    then fadd (product_col_major (fun h : R => h) (fun j => IZR j) (fun j => IZR (2 * j))
                                 (4130 / Wmma.N_TOTAL) (4130 mod Wmma.N_TOTAL))
              (IZR (4130 + 1))
    else 0%R.
Proof.
  exact (WMMAF16TensorCore_stores_one_tile (fun h : R => h) 1 2
           (fun j => IZR j) (fun j => IZR (2 * j)) (fun j => IZR (j + 1)) (fun _ => 0%R)
           ltac:(lia) ltac:(unfold Wmma.M, INT_MAX; lia)
           ltac:(lia) ltac:(unfold Wmma.N, INT_MAX; lia) 4130).
Defined.

(** X17: in the launch [CalcWMMA] makes, no thread has a tile outside the
    256 x 256 tiles of the matrices, so that the bounds tests of the kernel
    never fail, and every tile is the tile of some thread of the launch. *)
Theorem CalcWMMA_launch_covers_the_tiles :
  let gridDim := Wmma.CalcWMMA_gridDim 4 in
  let blockDim := Wmma.CalcWMMA_blockDim 4 in
  (forall t, In t (grid_threads gridDim blockDim) ->
     0 <= Wmma.tile_ix 4 blockDim t < Wmma.M_TILES /\
     0 <= Wmma.tile_iy blockDim t < Wmma.N_TILES) /\
  (forall ix iy, 0 <= ix < Wmma.M_TILES -> 0 <= iy < Wmma.N_TILES ->
     exists t, In t (grid_threads gridDim blockDim) /\
               Wmma.tile_ix 4 blockDim t = ix /\ Wmma.tile_iy blockDim t = iy).
Proof.
  intros gridDim blockDim.
  change gridDim with (mkdim3 64 64). change blockDim with (mkdim3 16 4).
  assert (Htile : forall t, In t (grid_threads (mkdim3 64 64) (mkdim3 16 4)) ->
            Wmma.tile_ix 4 (mkdim3 16 4) t
            = (dim_x (blockIdx t) * 16 + dim_x (threadIdx t)) / 4 /\
            Wmma.tile_iy (mkdim3 16 4) t
            = dim_y (blockIdx t) * 4 + dim_y (threadIdx t)).
  { intros t Ht. apply In_grid_threads in Ht. cbn [dim_x dim_y] in Ht.
    unfold Wmma.tile_ix, Wmma.tile_iy, u32. cbn [dim_x dim_y].
    change (4 mod 4294967296) with 4.
    rewrite (Z.mod_small (dim_x (blockIdx t) * 16 + dim_x (threadIdx t))) by lia.
    rewrite wrap_small by (unfold INT_MAX; Z.to_euclidean_division_equations; lia).
    rewrite thread_index_small by (unfold INT_MAX; lia).
    split; reflexivity. }
  split.
  - intros t Ht. destruct (Htile t Ht) as [-> ->].
    apply In_grid_threads in Ht. cbn [dim_x dim_y] in Ht.
    unfold Wmma.M_TILES, Wmma.N_TILES.
    split; [Z.to_euclidean_division_equations; lia|lia].
  - intros ix iy Hix Hiy. unfold Wmma.M_TILES, Wmma.N_TILES in *.
    set (t := mkthread (mkdim3 (ix / 4) (iy / 4)) (mkdim3 (4 * (ix mod 4)) (iy mod 4))).
    assert (Ht : In t (grid_threads (mkdim3 64 64) (mkdim3 16 4))).
    { apply In_grid_threads. unfold t. cbn [blockIdx threadIdx dim_x dim_y].
      Z.to_euclidean_division_equations; lia. }
    exists t. split; [exact Ht|].
    destruct (Htile t Ht) as [-> ->]. unfold t. cbn [blockIdx threadIdx dim_x dim_y].
    split; Z.to_euclidean_division_equations; lia.
Qed.

Lemma CalcWMMA_launch_covers_the_tiles_witness :
  0 <= Wmma.tile_ix 4 (Wmma.CalcWMMA_blockDim 4)
         (mkthread (mkdim3 63 63) (mkdim3 15 3)) < Wmma.M_TILES /\
  0 <= Wmma.tile_iy (Wmma.CalcWMMA_blockDim 4)
         (mkthread (mkdim3 63 63) (mkdim3 15 3)) < Wmma.N_TILES.
Proof.
  apply (proj1 CalcWMMA_launch_covers_the_tiles (mkthread (mkdim3 63 63) (mkdim3 15 3))).
  apply In_grid_threads. cbn. lia.
Defined.

(** ** The matrices of the benchmark *)

Section InitMatrixFacts.
Import Wmma.
Context {H : Type}.
Variable float2half : R -> H.
Variable rand : nat -> Z.
Hypothesis rand_range : forall n, 0 <= rand n <= INT_MAX.


End InitMatrixFacts.




(** ** Loading the data *)

Lemma to_size_t_int (size : Z) : 0 <= size <= INT_MAX -> to_size_t size = size.
Proof. intros H. unfold to_size_t, INT_MAX in *. apply Z.mod_small. lia. Qed.

Lemma fread_result {T : Type} (ptr : buffer T) (count : Z) (file : list T) :
  0 <= count ->
  snd (fread ptr count file) = Z.min count (Z.of_nat (length file)) /\
  (count <= Z.of_nat (length file) -> loaded file count ptr (fst (fread ptr count file))).
Proof.
  intros Hc. unfold fread. cbn [fst snd]. split.
  - rewrite length_firstn. lia.
  - intros Hlen. split.
    + intros i Hi.
      replace (0 <=? i) with true by (symmetry; apply Z.leb_le; lia).
      assert (Hn : (Z.to_nat i < length (firstn (Z.to_nat count) file))%nat)
        by (rewrite length_firstn; lia).
      destruct (nth_error (firstn (Z.to_nat count) file) (Z.to_nat i)) as [v|] eqn:E.
      * rewrite <- E. rewrite nth_error_firstn.
        replace (Z.to_nat i <? Z.to_nat count)%nat with true; [reflexivity|].
        symmetry. apply Nat.ltb_lt. lia.
      * apply nth_error_None in E. lia.
    + intros j Hj.
      destruct (0 <=? j) eqn:H0; [|reflexivity].
      apply Z.leb_le in H0.
      destruct (nth_error (firstn (Z.to_nat count) file) (Z.to_nat j)) as [v|] eqn:E;
        [|reflexivity].
      assert (Hn : (Z.to_nat j < length (firstn (Z.to_nat count) file))%nat)
        by (apply nth_error_Some; congruence).
      rewrite length_firstn in Hn. lia.
Qed.

Section Loading.
Context {T : Type}.
Variables (fs : file_system T) (filename : String.string) (ptr : buffer T) (size : Z).
Hypothesis size_int : 0 <= size <= INT_MAX.

(** The shape the two loaders share. *)
Let load : outcome (buffer T) :=
  match fs filename with
  | None => Exits 1
  | Some file =>
      let '(p, read_size) := fread ptr (to_size_t size) file in
      if negb (read_size =? to_size_t size) then Exits 1 else Returns p
  end.

Lemma load_outcome :
  match fs filename with
  | None => load = Exits 1
  | Some file =>
      if size <=? Z.of_nat (length file)
      then exists p, load = Returns p /\ loaded file size ptr p
      else load = Exits 1
  end.
Proof.
  unfold load. destruct (fs filename) as [file|]; [|reflexivity].
  rewrite (to_size_t_int size size_int).
  destruct (fread ptr size file) as [p read_size] eqn:Ef.
  pose proof (fread_result ptr size file ltac:(lia)) as [Hr Hl].
  rewrite Ef in Hr, Hl. cbn [fst snd] in Hr, Hl.
  destruct (size <=? Z.of_nat (length file)) eqn:Hs.
  - apply Z.leb_le in Hs.
    replace (read_size =? size) with true by (symmetry; apply Z.eqb_eq; lia).
    exists p. split; [reflexivity|]. now apply Hl.
  - apply Z.leb_gt in Hs.
    replace (read_size =? size) with false by (symmetry; apply Z.eqb_neq; lia).
    reflexivity.
Qed.

End Loading.

(** X19: [load_data], asked for [size] >= 0 elements, ends the process with
    status 1 when the file cannot be opened and when it holds fewer than
    [size] elements; otherwise it returns with the first [size] elements of
    the file in the first [size] cells of [data], the other cells as they
    were (a longer file is not an error). *)
Theorem load_data_outcome {F : Type} (fs : file_system F) (filename : String.string)
    (data : buffer F) (size : Z) :
  0 <= size <= INT_MAX ->
  match fs filename with
  | None => load_data fs filename data size = Exits 1
  | Some file =>
      if size <=? Z.of_nat (length file)
      then exists data', load_data fs filename data size = Returns data' /\
                         loaded file size data data'
      else load_data fs filename data size = Exits 1
  end.
Proof. intros Hsize. now apply load_outcome. Qed.

Lemma load_data_outcome_witness :
  exists data',
    load_data (fun _ => Some [5; 6; 7]) String.EmptyString (fun _ => 0) 2 = Returns data' /\
    loaded [5; 6; 7] 2 (fun _ => 0) data'.
Proof.
  exact (load_data_outcome (fun _ => Some [5; 6; 7]) String.EmptyString (fun _ => 0) 2
           ltac:(unfold INT_MAX; lia)).
Defined.

(** X20: [load_labels] behaves in the same way on a file of labels: it ends
    the process with status 1 when the file cannot be opened or holds fewer
    than [size] labels, and otherwise leaves the first [size] labels of the
    file in the first [size] cells of [labels]. *)
Theorem load_labels_outcome (fs : file_system Z) (filename : String.string)
    (labels : buffer Z) (size : Z) :
  0 <= size <= INT_MAX ->
  match fs filename with
  | None => load_labels fs filename labels size = Exits 1
  | Some file =>
      if size <=? Z.of_nat (length file)
      then exists labels', load_labels fs filename labels size = Returns labels' /\
                           loaded file size labels labels'
      else load_labels fs filename labels size = Exits 1
  end.
Proof. intros Hsize. now apply load_outcome. Qed.

Lemma load_labels_outcome_witness :
  load_labels (fun _ => Some [5; 6; 7]) String.EmptyString (fun _ => 0) 4 = Exits 1.
Proof.
  exact (load_labels_outcome (fun _ => Some [5; 6; 7]) String.EmptyString (fun _ => 0) 4
           ltac:(unfold INT_MAX; lia)).
Defined.
